(** * Bank statement OCR: the extraction service module

    A shallow embedding of [src/services/geminiService.ts]:

    - [Module Decode]: [cleanAndParseJson], with the string operations it
      relies on ([String.prototype.trim], the fence regular expression and
      [JSON.parse]) written out over UTF-16 code units;
    - [Module PdfJs]: the lazily loaded rendering backend, [getPdfJs], as a
      state machine over the module variable [pdfjsLibPromise], the two
      globals on [window] and the script elements in flight;
    - [Module Pipeline]: [fileToGenerativePart] and [processStatementFiles]
      in a small monad for awaited calls, with [Promise.all] as the
      ECMAScript combinator that is notified of the settlements in the
      order in which they happen.

    The properties follow the definitions: [DecodeFacts] (claims C1, C4
    and C10), [PdfJsFacts] (C3 and C9) and [PipelineFacts] (C2 and C5 to
    C8).
*)

From Stdlib Require Import NArith.
#[local] Set Warnings "-register-all".
From stdpp Require Import base option list strings pretty gmap.

Local Open Scope N_scope.

(** ** JavaScript strings *)

(** A JavaScript string is a sequence of UTF-16 code units. *)
Definition code_unit : Type := N.
Definition jsstring : Type := list code_unit.

(** ASCII literals, for readability: every byte below 128 is its own
    code unit. *)
Definition js (s : string) : jsstring :=
  map Ascii.N_of_ascii (String.list_ascii_of_string s).

Definition LF : code_unit := 10.
Definition BACKTICK : code_unit := 96.
Definition QUOTE : code_unit := 34.
Definition BACKSLASH : code_unit := 92.

(** ** Thrown values, results and promises *)

(** What a [throw] or a rejection carries: [new Error(message)] (or an
    instance of one of its subclasses), or a value that is no [Error]. *)
Inductive error : Type :=
  | Error (message : string)
  | NotAnError.

(** A synchronous call returns or throws. *)
Inductive result (A : Type) : Type :=
  | Return (v : A)
  | Throw (e : error).
Arguments Return {A} v.
Arguments Throw {A} e.

(** How a promise ends for whoever awaits it.  [Pending] is the promise
    that is never settled: the [await] does not come back. *)
Inductive outcome (A : Type) : Type :=
  | Fulfilled (v : A)
  | Rejected (e : error)
  | Pending.
Arguments Fulfilled {A} v.
Arguments Rejected {A} e.
Arguments Pending {A}.

Module Decode.

(** *** [String.prototype.trim] *)

(** WhiteSpace and LineTerminator of ECMA-262: TAB, LF, VT, FF, CR, SP,
    NBSP, the Unicode space separators, LS, PS and the byte order mark. *)
Definition is_js_space (c : code_unit) : bool :=
  (c =? 9) || (c =? 10) || (c =? 11) || (c =? 12) || (c =? 13) || (c =? 32)
  || (c =? 160) || (c =? 5760) || ((8192 <=? c) && (c <=? 8202))
  || (c =? 8232) || (c =? 8233) || (c =? 8239) || (c =? 8287)
  || (c =? 12288) || (c =? 65279).

Fixpoint trimStart (s : jsstring) : jsstring :=
  match s with
  | c :: s' => if is_js_space c then trimStart s' else s
  | [] => []
  end.

Definition trimEnd (s : jsstring) : jsstring := rev (trimStart (rev s)).

Definition trim (s : jsstring) : jsstring := trimEnd (trimStart s).

(** *** The fence pattern [/```json\n([\s\S]*?)\n```/] *)

Definition fence_open : jsstring := js "```json" ++ [LF].
Definition fence_close : jsstring := LF :: js "```".

(** [strip_prefix p s]: the literal [p] matches at the head of [s]; what
    follows it. *)
Fixpoint strip_prefix (p s : jsstring) : option jsstring :=
  match p, s with
  | [], _ => Some s
  | a :: p', b :: s' => if a =? b then strip_prefix p' s' else None
  | _ :: _, [] => None
  end.

(** The lazy group [([\s\S]*?)] followed by the closing literal: the
    matcher tries the shortest interior first and extends it by one code
    unit (any code unit at all) each time the closing literal does not
    follow. *)
Fixpoint lazy_until (close s : jsstring) : option jsstring :=
  match strip_prefix close s with
  | Some _ => Some []
  | None =>
      match s with
      | [] => None
      | c :: s' => cons c <$> lazy_until close s'
      end
  end.

(** One attempt of the whole pattern at the head of [s]; the capture
    group on success. *)
Definition match_here (s : jsstring) : option jsstring :=
  rest ← strip_prefix fence_open s; lazy_until fence_close rest.

(** [String.prototype.match] with a pattern that is neither anchored nor
    global: the attempts go through the start positions from left to
    right and the first one that succeeds wins.  The result is capture
    group 1. *)
Fixpoint regex_match (s : jsstring) : option jsstring :=
  match match_here s with
  | Some interior => Some interior
  | None =>
      match s with
      | [] => None
      | _ :: s' => regex_match s'
      end
  end.

(** *** [JSON.parse] *)

(** The value [JSON.parse] builds.  A number keeps its literal: the
    conversion to a double is not part of this model.  An object keeps its
    properties in creation order. *)
Inductive json : Type :=
  | JNull
  | JBool (b : bool)
  | JNumber (literal : jsstring)
  | JString (s : jsstring)
  | JArray (elements : list json)
  | JObject (properties : list (jsstring * json)).

(** [CreateDataProperty]: a repeated key overwrites the value where the
    key first appeared, a new key is added last. *)
Fixpoint obj_set (ps : list (jsstring * json)) (k : jsstring) (v : json)
  : list (jsstring * json) :=
  match ps with
  | [] => [(k, v)]
  | (k', v') :: ps' =>
      if decide (k' = k) then (k, v) :: ps' else (k', v') :: obj_set ps' k v
  end.

(** JSONWhiteSpace: TAB, LF, CR, SP only. *)
Definition is_json_ws (c : code_unit) : bool :=
  (c =? 9) || (c =? 10) || (c =? 13) || (c =? 32).

Definition is_digit (c : code_unit) : bool := (48 <=? c) && (c <=? 57).
Definition is_digit19 (c : code_unit) : bool := (49 <=? c) && (c <=? 57).

Definition hex_val (c : code_unit) : option N :=
  if is_digit c then Some (c - 48)
  else if (97 <=? c) && (c <=? 102) then Some (c - 87)
  else if (65 <=? c) && (c <=? 70) then Some (c - 55)
  else None.

(** The enclosing array or object of the value being read. *)
Inductive frame : Type :=
  | FArr (rev_elements : list json)
  | FObj (properties : list (jsstring * json)) (key : jsstring).

(** Where the reader is inside a JSONNumber. *)
Inductive num_state : Type :=
  | NMinus | NZero | NInt | NDot | NFrac | NExp | NExpSign | NExpDigits.

Definition num_accepting (ns : num_state) : bool :=
  match ns with
  | NZero | NInt | NFrac | NExpDigits => true
  | _ => false
  end.

Definition is_e (c : code_unit) : bool := (c =? 101) || (c =? 69).

Definition num_next (ns : num_state) (c : code_unit) : option num_state :=
  match ns with
  | NMinus => if c =? 48 then Some NZero
              else if is_digit19 c then Some NInt else None
  | NZero => if c =? 46 then Some NDot
             else if is_e c then Some NExp else None
  | NInt => if is_digit c then Some NInt
            else if c =? 46 then Some NDot
            else if is_e c then Some NExp else None
  | NDot => if is_digit c then Some NFrac else None
  | NFrac => if is_digit c then Some NFrac
             else if is_e c then Some NExp else None
  | NExp => if (c =? 43) || (c =? 45) then Some NExpSign
            else if is_digit c then Some NExpDigits else None
  | NExpSign => if is_digit c then Some NExpDigits else None
  | NExpDigits => if is_digit c then Some NExpDigits else None
  end.

(** The three JSON literal names. *)
Inductive literal : Type := LNull | LTrue | LFalse.

Definition literal_text (l : literal) : jsstring :=
  match l with
  | LNull => js "null"
  | LTrue => js "true"
  | LFalse => js "false"
  end.

Definition literal_value (l : literal) : json :=
  match l with
  | LNull => JNull
  | LTrue => JBool true
  | LFalse => JBool false
  end.

(** What the reader expects next.  String contents and number literals are
    accumulated in reverse. *)
Inductive mode : Type :=
  | MValue                       (* a value *)
  | MArrFirst                    (* after [[]: a value or []] *)
  | MObjFirst                    (* after [{]: a key or [}] *)
  | MObjKey                      (* after [,] in an object: a key *)
  | MColon (key : jsstring)      (* after a key: [:] *)
  | MAfter (v : json)            (* after a value: [,], a closer, or the end *)
  | MStr (is_key : bool) (acc : jsstring)  (* inside a string *)
  | MEsc (is_key : bool) (acc : jsstring)
  | MUni (is_key : bool) (acc : jsstring) (digits : list N)
  | MLit (l : literal) (pos : nat)
  | MNum (ns : num_state) (acc : jsstring).

Definition pstate : Type := mode * list frame.

Definition start_value (c : code_unit) (stk : list frame) : option pstate :=
  if c =? 91 then Some (MArrFirst, FArr [] :: stk)
  else if c =? 123 then Some (MObjFirst, FObj [] [] :: stk)
  else if c =? QUOTE then Some (MStr false [], stk)
  else if c =? 110 then Some (MLit LNull 1, stk)
  else if c =? 116 then Some (MLit LTrue 1, stk)
  else if c =? 102 then Some (MLit LFalse 1, stk)
  else if c =? 45 then Some (MNum NMinus [c], stk)
  else if c =? 48 then Some (MNum NZero [c], stk)
  else if is_digit19 c then Some (MNum NInt [c], stk)
  else None.

Definition after_value (v : json) (stk : list frame) (c : code_unit)
  : option pstate :=
  if is_json_ws c then Some (MAfter v, stk)
  else
    match stk with
    | [] => None
    | FArr els :: stk' =>
        if c =? 44 then Some (MValue, FArr (v :: els) :: stk')
        else if c =? 93 then Some (MAfter (JArray (rev (v :: els))), stk')
        else None
    | FObj ps k :: stk' =>
        if c =? 44 then Some (MObjKey, FObj (obj_set ps k v) [] :: stk')
        else if c =? 125 then Some (MAfter (JObject (obj_set ps k v)), stk')
        else None
    end.

Definition end_string (is_key : bool) (s : jsstring) (stk : list frame)
  : pstate :=
  if is_key then (MColon s, stk) else (MAfter (JString s), stk).

Definition escape_char (c : code_unit) : option code_unit :=
  if c =? QUOTE then Some QUOTE
  else if c =? BACKSLASH then Some BACKSLASH
  else if c =? 47 then Some 47
  else if c =? 98 then Some 8
  else if c =? 102 then Some 12
  else if c =? 110 then Some 10
  else if c =? 114 then Some 13
  else if c =? 116 then Some 9
  else None.

Definition hex4 (ds : list N) : N :=
  fold_left (fun acc d => 16 * acc + d) ds 0.

Definition step (st : pstate) (c : code_unit) : option pstate :=
  let '(m, stk) := st in
  match m with
  | MValue =>
      if is_json_ws c then Some (MValue, stk) else start_value c stk
  | MArrFirst =>
      if is_json_ws c then Some (MArrFirst, stk)
      else if c =? 93 then
        match stk with
        | FArr els :: stk' => Some (MAfter (JArray (rev els)), stk')
        | _ => None
        end
      else start_value c stk
  | MObjFirst =>
      if is_json_ws c then Some (MObjFirst, stk)
      else if c =? QUOTE then Some (MStr true [], stk)
      else if c =? 125 then
        match stk with
        | FObj ps _ :: stk' => Some (MAfter (JObject ps), stk')
        | _ => None
        end
      else None
  | MObjKey =>
      if is_json_ws c then Some (MObjKey, stk)
      else if c =? QUOTE then Some (MStr true [], stk)
      else None
  | MColon k =>
      if is_json_ws c then Some (MColon k, stk)
      else if c =? 58 then
        match stk with
        | FObj ps _ :: stk' => Some (MValue, FObj ps k :: stk')
        | _ => None
        end
      else None
  | MAfter v => after_value v stk c
  | MStr ik acc =>
      if c =? QUOTE then Some (end_string ik (rev acc) stk)
      else if c =? BACKSLASH then Some (MEsc ik acc, stk)
      else if c <? 32 then None
      else Some (MStr ik (c :: acc), stk)
  | MEsc ik acc =>
      if c =? 117 then Some (MUni ik acc [], stk)
      else
        match escape_char c with
        | Some d => Some (MStr ik (d :: acc), stk)
        | None => None
        end
  | MUni ik acc ds =>
      match hex_val c with
      | Some d =>
          if (length ds =? 3)%nat
          then Some (MStr ik (hex4 (ds ++ [d]) :: acc), stk)
          else Some (MUni ik acc (ds ++ [d]), stk)
      | None => None
      end
  | MLit l pos =>
      match literal_text l !! pos with
      | Some c' =>
          if c =? c' then
            if (S pos =? length (literal_text l))%nat
            then Some (MAfter (literal_value l), stk)
            else Some (MLit l (S pos), stk)
          else None
      | None => None
      end
  | MNum ns acc =>
      match num_next ns c with
      | Some ns' => Some (MNum ns' (c :: acc), stk)
      | None =>
          if num_accepting ns
          then after_value (JNumber (rev acc)) stk c
          else None
      end
  end.

Fixpoint run (st : pstate) (s : jsstring) : option pstate :=
  match s with
  | [] => Some st
  | c :: s' => st' ← step st c; run st' s'
  end.

(** The end of the text: exactly one complete value and nothing open. *)
Definition finish (st : pstate) : option json :=
  match st with
  | (MAfter v, []) => Some v
  | (MNum ns acc, []) =>
      if num_accepting ns then Some (JNumber (rev acc)) else None
  | _ => None
  end.

(** [JSON.parse(text)] without reviver; [None] is the SyntaxError. *)
Definition JSON_parse (text : jsstring) : option json :=
  st ← run (MValue, []) text; finish st.

(** *** [cleanAndParseJson] *)

(** [try { body } catch (error) { handler(error) }]. *)
Definition try_catch {A} (body : result A) (handler : error → result A)
  : result A :=
  match body with
  | Return v => Return v
  | Throw e => handler e
  end.

Definition MalformedResponseError : error :=
  Error "The AI returned an invalid data format. Please check the document or try again.".

(** [Array.isArray]. *)
Definition isArray (v : json) : bool :=
  match v with
  | JArray _ => true
  | _ => false
  end.

(** The argument handed to [JSON.parse]. *)
Definition jsonString (text : jsstring) : jsstring :=
  let trimmed := trim text in
  let jsonMatch := regex_match trimmed in
  match jsonMatch with
  | Some group1 => group1
  | None => trimmed
  end.

(** The records are whatever the array holds: nothing checks them against
    the [Transaction] interface at run time.  The error of [JSON.parse] and
    the one thrown for a value that is no array both land in the [catch],
    which throws its own. *)
Definition cleanAndParseJson (text : jsstring) : result (list json) :=
  try_catch
    (match JSON_parse (jsonString text) with
     | None => Throw (Error "SyntaxError")
     | Some (JArray parsed) => Return parsed
     | Some _ => Throw (Error "Parsed data is not an array.")
     end)
    (fun _ => Throw MalformedResponseError).

(** *** Vocabulary of the properties *)

Definition in_string (st : pstate) : bool :=
  match st.1 with
  | MStr _ _ => true
  | _ => false
  end.

Definition quoted (s : string) : jsstring := QUOTE :: js s ++ [QUOTE].

(** An array of one record with [date], [description], [category] and
    an empty [notes], and no [amount]. *)
Definition record_without_amount : jsstring :=
  js "[{" ++ quoted "date" ++ js ":" ++ quoted "2024-01-05" ++ js ","
  ++ quoted "description" ++ js ":" ++ quoted "COFFEE SHOP" ++ js ","
  ++ quoted "category" ++ js ":" ++ quoted "Dining" ++ js ","
  ++ quoted "notes" ++ js ":" ++ quoted EmptyString ++ js "}]".

(** An array of one full record, the coffee shop purchase of -4.5,
    indented as the service may send it. *)
Definition coffee_shop_response : jsstring :=
  js "  [" ++ [LF] ++ js "    {" ++ quoted "date" ++ js ": "
  ++ quoted "2024-01-05" ++ js "," ++ [LF]
  ++ js "     " ++ quoted "description" ++ js ": " ++ quoted "COFFEE SHOP"
  ++ js "," ++ [LF]
  ++ js "     " ++ quoted "amount" ++ js ": -4.5," ++ [LF]
  ++ js "     " ++ quoted "category" ++ js ": " ++ quoted "Dining" ++ js ","
  ++ [LF]
  ++ js "     " ++ quoted "notes" ++ js ": " ++ quoted EmptyString ++ js "}" ++ [LF]
  ++ js "  ]" ++ [LF].

(** A text between an opening fence line with the given label and a
    closing fence line. *)
Definition fenced (label body : jsstring) : jsstring :=
  js "```" ++ label ++ [LF] ++ body ++ fence_close.

(** No white space at either end. *)
Definition unpadded (s : jsstring) : Prop :=
  (∀ c, head s = Some c → is_js_space c = false)
  ∧ (∀ c, last s = Some c → is_js_space c = false).

(** [p] stands at the end of [a ++ p] and nowhere before. *)
Definition first_at (p a : jsstring) : Prop :=
  ∀ x y, a ++ p = x ++ p ++ y → y = [].

(** A json fence: an opening fence line and a closing fence somewhere
    after it. *)
Definition has_json_fence (s : jsstring) : Prop :=
  ∃ pre body post, s = pre ++ fence_open ++ body ++ fence_close ++ post.

(** What is left of a text once the fence is stripped: the text between
    its first opening fence line and the first closing fence after that,
    or, if it has no json fence, the text itself. *)
Definition fence_stripped (s payload : jsstring) : Prop :=
  (∃ pre post,
     s = pre ++ fence_open ++ payload ++ fence_close ++ post
     ∧ first_at fence_open pre ∧ first_at fence_close payload)
  ∨ (payload = s ∧ ¬ has_json_fence s).

End Decode.

(** ** The rendering backend: [getPdfJs] *)

Module PdfJs.

Definition PDF_JS_VERSION : string := "2.16.105".
Definition PDF_JS_CDN_URL : string :=
  "https://cdnjs.cloudflare.com/ajax/libs/pdf.js/" +:+ PDF_JS_VERSION
  +:+ "/pdf.min.js".
Definition PDF_WORKER_CDN_URL : string :=
  "https://cdnjs.cloudflare.com/ajax/libs/pdf.js/" +:+ PDF_JS_VERSION
  +:+ "/pdf.worker.min.js".

(** A reference to a library object; two globals may hold the same one. *)
Definition lib_ref : Type := nat.

(** The promise [getPdfJs] hands out: a fresh, already fulfilled
    [Promise.resolve(pdfLib)], or the promise made by [new Promise] for
    the n-th script element. *)
Inductive promise : Type :=
  | Resolved (pdfLib : lib_ref)
  | Loading (script : nat).

(** The module variable, the two globals, the [workerSrc] of each library
    object, and the promises made so far: [loads !! n] is the promise whose
    [resolve] and [reject] the handlers of the n-th script element hold,
    [Pending] as long as that script is loading. *)
Record state : Type := State {
  window_pdfjsLib : option lib_ref;
  window_pdfjs_dist : option lib_ref;   (* window['pdfjs-dist/build/pdf'] *)
  workerSrc : gmap lib_ref string;
  pdfjsLibPromise : option nat;
  loads : list (outcome lib_ref);
}.

Definition set_workerSrc (l : lib_ref) (st : state) : state :=
  State (window_pdfjsLib st) (window_pdfjs_dist st)
        (<[l := PDF_WORKER_CDN_URL]> (workerSrc st))
        (pdfjsLibPromise st) (loads st).

Definition set_window_pdfjsLib (l : lib_ref) (st : state) : state :=
  State (Some l) (window_pdfjs_dist st) (workerSrc st)
        (pdfjsLibPromise st) (loads st).

Definition set_window_pdfjs_dist (l : lib_ref) (st : state) : state :=
  State (window_pdfjsLib st) (Some l) (workerSrc st)
        (pdfjsLibPromise st) (loads st).

Definition set_pdfjsLibPromise (p : option nat) (st : state) : state :=
  State (window_pdfjsLib st) (window_pdfjs_dist st) (workerSrc st)
        p (loads st).

Definition set_loads (ls : list (outcome lib_ref)) (st : state) : state :=
  State (window_pdfjsLib st) (window_pdfjs_dist st) (workerSrc st)
        (pdfjsLibPromise st) ls.

(** [resolve] and [reject] of the n-th promise: a promise is settled once,
    later calls do nothing. *)
Definition settle (n : nat) (o : outcome lib_ref) (st : state) : state :=
  match loads st !! n with
  | Some Pending => set_loads (<[n := o]> (loads st)) st
  | _ => st
  end.

(** [!pdfLib.GlobalWorkerOptions.workerSrc]: unset or the empty string. *)
Definition workerSrc_unset (l : lib_ref) (st : state) : bool :=
  match workerSrc st !! l with
  | None => true
  | Some src => bool_decide (src = EmptyString)
  end.

(** [getPdfJs()]: the promise returned and the state left behind.  The
    executor of [new Promise] creates the script element and appends it to
    [document.head]; the promise is number [length (loads st)]. *)
Definition getPdfJs (st : state) : promise * state :=
  let pdfLib := match window_pdfjsLib st with
                | Some l => Some l
                | None => window_pdfjs_dist st
                end in
  match pdfLib with
  | Some l =>
      (Resolved l, if workerSrc_unset l st then set_workerSrc l st else st)
  | None =>
      match pdfjsLibPromise st with
      | Some n => (Loading n, st)
      | None =>
          let n := length (loads st) in
          (Loading n,
           set_pdfjsLibPromise (Some n) (set_loads (loads st ++ [Pending]) st))
      end
  end.

Definition LibraryNotFoundError : error :=
  Error "pdf.js loaded but the library object is not found on the window.".

Definition LibraryLoadError : error :=
  Error "PDF processing library failed to load. Please check your network connection and try again.".

(** [script.onload] of the n-th script element. *)
Definition script_onload (n : nat) (st : state) : state :=
  match window_pdfjs_dist st with
  | Some pdfLibInstance =>
      settle n (Fulfilled pdfLibInstance)
        (set_window_pdfjsLib pdfLibInstance (set_workerSrc pdfLibInstance st))
  | None => settle n (Rejected LibraryNotFoundError) st
  end.

(** [script.onerror] of the n-th script element. *)
Definition script_onerror (n : nat) (st : state) : state :=
  settle n (Rejected LibraryLoadError) (set_pdfjsLibPromise None st).

(** What happens in the page, one task of the event loop at a time: the
    service module calls [getPdfJs]; a script that was fetched runs, which
    for pdf.js defines [window['pdfjs-dist/build/pdf']], and its load event
    fires; or the fetch of a script fails and its error event fires. *)
Inductive event : Type :=
  | CallGetPdfJs
  | ScriptLoaded (script : nat) (defines : option lib_ref)
  | ScriptFailed (script : nat).

Definition in_flight (st : state) (n : nat) : bool :=
  match loads st !! n with
  | Some Pending => true
  | _ => false
  end.

(** A script element fires one of its two events, once. *)
Definition step (st : state) (ev : event) : option state :=
  match ev with
  | CallGetPdfJs => Some (getPdfJs st).2
  | ScriptLoaded n defines =>
      if in_flight st n then
        Some (script_onload n
                (match defines with
                 | Some l => set_window_pdfjs_dist l st
                 | None => st
                 end))
      else None
  | ScriptFailed n =>
      if in_flight st n then Some (script_onerror n st) else None
  end.

Fixpoint exec (st : state) (evs : list event) : option state :=
  match evs with
  | [] => Some st
  | ev :: evs' => st' ← step st ev; exec st' evs'
  end.

(** The page before the module has done anything: whatever the document's
    own scripts left on [window], no promise yet. *)
Definition initial (lib dist : option lib_ref) (srcs : gmap lib_ref string)
  : state :=
  State lib dist srcs None [].

Definition reachable (st : state) : Prop :=
  ∃ lib dist srcs evs, exec (initial lib dist srcs) evs = Some st.

(** [await p]. *)
Definition await (st : state) (p : promise) : outcome lib_ref :=
  match p with
  | Resolved l => Fulfilled l
  | Loading n => default Pending (loads st !! n)
  end.

(** *** Vocabulary of the properties *)

(** While a script is loading, its promise is the cached one and neither
    global holds a library object; the cached promise is one that was
    made. *)
Definition single_flight_inv (st : state) : Prop :=
  (∀ i, loads st !! i = Some Pending →
        pdfjsLibPromise st = Some i
        ∧ window_pdfjsLib st = None ∧ window_pdfjs_dist st = None)
  ∧ (∀ n, pdfjsLibPromise st = Some n → (n < length (loads st))%nat).

(** A fulfilled load left its library object on [window.pdfjsLib], with
    the worker of the CDN as its worker source. *)
Definition handle_inv (st : state) : Prop :=
  ∀ i l, loads st !! i = Some (Fulfilled l) →
         window_pdfjsLib st = Some l
         ∧ workerSrc st !! l = Some PDF_WORKER_CDN_URL.

End PdfJs.

(** ** Rendering and the pipeline *)

Module Pipeline.
Import Decode.

Definition bytes : Type := list N.

(** *** The request *)

Inductive Part : Type :=
  | InlineData (mimeType : string) (data : option string)
  | Text (text : string).

Inductive Schema : Type :=
  | TypeSTRING (description : string)
  | TypeNUMBER (description : string)
  | TypeOBJECT (properties : list (string * Schema)) (required : list string)
  | TypeARRAY (items : Schema).

Record Request : Type := {
  model : string;
  contents : list Part;
  responseMimeType : string;
  responseSchema : Schema;
}.

Record Response : Type := { text : option jsstring }.

(** *** What the code calls *)

(** A page proxy of pdf.js together with the canvas made for it:
    whether [canvas.getContext('2d')] gives a context, how
    [page.render(...).promise] ends, and [canvas.toDataURL('image/jpeg')]
    after rendering. *)
Record PDFPage : Type := {
  getContext_2d : bool;
  render : outcome unit;
  toDataURL : string;
}.

Record PDFDocument : Type := {
  numPages : nat;
  getPage : nat → outcome PDFPage;
}.

(** [pdfjsLib.getDocument({ data }).promise]. *)
Record PdfJsLib : Type := { getDocument : bytes → outcome PDFDocument }.

(** A [File]: its name and declared media type, how [file.arrayBuffer()]
    ends, and [reader.result] when a [FileReader] told to
    [readAsDataURL(file)] fires [loadend]: the data URL, or [null] when the
    read failed. *)
Record File : Type := {
  name : string;
  type : string;
  arrayBuffer : outcome bytes;
  readAsDataURL : option string;
}.

(** The rest of the world: how [await getPdfJs()] ends for the render of a
    file, and the extraction service. *)
Record World : Type := {
  getPdfJs : File → outcome PdfJsLib;
  generateContent : Request → outcome Response;
}.

(** *** Awaited calls *)

Inductive event : Type :=
  | SetLoadingMessage (message : string)
  | ConsoleError
  | CallGetPdfJs (file : string)
  | CallArrayBuffer (file : string)
  | CallGetDocument (file : string)
  | CallGetPage (file : string) (pageNumber : nat)
  | CallRender (file : string) (pageNumber : nat)
  | CallReadAsDataURL (file : string)
  | CallGenerateContent (request : Request).

(** An asynchronous computation: the calls it makes, in order, and how its
    promise ends. *)
Definition async (A : Type) : Type := list event * outcome A.

#[global] Instance async_ret : MRet async := λ A v, ([], Fulfilled v).

#[global] Instance async_bind : MBind async := λ A B f m,
  match m.2 with
  | Fulfilled v => (m.1 ++ (f v).1, (f v).2)
  | Rejected e => (m.1, Rejected e)
  | Pending => (m.1, Pending)
  end.

Definition throw {A} (e : error) : async A := ([], Rejected e).

(** [await] of a call into the world. *)
Definition call {A} (ev : event) (o : outcome A) : async A := ([ev], o).

Definition setLoadingMessage (message : string) : async unit :=
  ([SetLoadingMessage message], Fulfilled ()).

Definition console_error : async unit := ([ConsoleError], Fulfilled ()).

(** [try { body } catch (error) { handler(error) }]: a rejection of an
    awaited promise lands in the handler; a promise that is never settled
    keeps the body waiting. *)
Definition try_catch {A} (body : async A) (handler : error → async A)
  : async A :=
  match body.2 with
  | Rejected e => (body.1 ++ (handler e).1, (handler e).2)
  | _ => body
  end.

(** A function that returns or throws, inside an [async] function. *)
Definition of_result {A} (r : result A) : async A :=
  match r with
  | Return v => mret v
  | Throw e => throw e
  end.

(** *** [fileToGenerativePart] *)

Definition COMMA : Ascii.ascii := Ascii.ascii_of_nat 44.

(** [s.split(',')[1]]: what lies between the first comma and the next
    one; [undefined] without a comma. *)
Fixpoint until_comma (s : string) : string :=
  match s with
  | EmptyString => EmptyString
  | String c s' => if Ascii.eqb c COMMA then EmptyString
                   else String c (until_comma s')
  end.

Fixpoint after_comma (s : string) : option string :=
  match s with
  | EmptyString => None
  | String c s' => if Ascii.eqb c COMMA then Some s' else after_comma s'
  end.

Definition split_comma_1 (s : string) : option string :=
  until_comma <$> after_comma s.

Definition DocumentOpenError (file : File) : error :=
  Error ("Could not read " +:+ name file
         +:+ ". It might be corrupted or password-protected.").

Definition PageRenderError (i : nat) (file : File) : error :=
  Error ("An error occurred while rendering page " +:+ pretty i +:+ " from "
         +:+ name file +:+ ". The page might be corrupted.").

(** The body of the loop for page [i]; the part it pushes. *)
Definition render_page (pdf : PDFDocument) (file : File) (i : nat)
  : async Part :=
  try_catch
    (setLoadingMessage ("Rendering page " +:+ pretty i +:+ " of "
                        +:+ pretty (numPages pdf) +:+ " from " +:+ name file
                        +:+ "...");;
     page ← call (CallGetPage (name file) i) (getPage pdf i);
     if negb (getContext_2d page) then
       throw (Error ("Could not create canvas context for page "
                     +:+ pretty i +:+ "."))
     else
       call (CallRender (name file) i) (render page);;
       let base64Data := split_comma_1 (toDataURL page) in
       mret (InlineData "image/jpeg" base64Data))
    (λ _, console_error;; throw (PageRenderError i file)).

(** [for (let i = ...; i <= numPages; i++)] with [remaining] pages to go;
    [parts] is the array pushed to. *)
Fixpoint render_pages (pdf : PDFDocument) (file : File)
    (remaining i : nat) (parts : list Part) : async (list Part) :=
  match remaining with
  | 0%nat => mret parts
  | S remaining' =>
      part ← render_page pdf file i;
      render_pages pdf file remaining' (S i) (parts ++ [part])
  end.

Definition fileToGenerativePart (w : World) (file : File)
  : async (list Part) :=
  if String.eqb (type file) "application/pdf" then
    setLoadingMessage ("Loading PDF library for " +:+ name file +:+ "...");;
    pdfjsLib ← call (CallGetPdfJs (name file)) (getPdfJs w file);
    fileBuffer ← call (CallArrayBuffer (name file)) (arrayBuffer file);
    pdf ← try_catch
             (setLoadingMessage ("Processing PDF: " +:+ name file +:+ "...");;
              call (CallGetDocument (name file))
                   (getDocument pdfjsLib fileBuffer))
             (λ _, console_error;; throw (DocumentOpenError file));
    render_pages pdf file (numPages pdf) 1 []
  else
    (* The promise has no [reject]; its [onloadend] handler calls
       [resolve] with [reader.result.split(',')[1]], and with a [null]
       result throws before it gets to [resolve]. *)
    base64EncodedData ←
      call (CallReadAsDataURL (name file))
           (match readAsDataURL file with
            | Some result => Fulfilled (split_comma_1 result)
            | None => Pending
            end);
    mret [InlineData (type file) base64EncodedData].

(** *** [Promise.all] *)

(** The record kept by [Promise.all]: the values so far, with a hole for
    every promise that has not been fulfilled yet, the count of holes, and
    the state of the promise it returned. *)
Record all_state (A : Type) : Type := AllState {
  values : list (option A);
  remainingElementsCount : nat;
  settled : outcome (list A);
}.
Arguments AllState {A}.
Arguments values {A}.
Arguments remainingElementsCount {A}.
Arguments settled {A}.

(** After the loop over [n] promises. *)
Definition all_start {A} (n : nat) : all_state A :=
  AllState (replicate n None) n
           (match n with 0%nat => Fulfilled [] | _ => Pending end).

(** The resolve element function of index [i], called with [x]. *)
Definition resolve_element {A} (i : nat) (x : A) (st : all_state A)
  : all_state A :=
  match values st !! i with
  | Some None =>
      let values' := <[i := Some x]> (values st) in
      let remaining' := pred (remainingElementsCount st) in
      AllState values' remaining'
        (match remaining', settled st with
         | 0%nat, Pending => Fulfilled (omap id values')
         | _, _ => settled st
         end)
  | _ => st                          (* already called *)
  end.

(** The reject function of the returned promise: the first call settles
    it. *)
Definition reject_all {A} (e : error) (st : all_state A) : all_state A :=
  AllState (values st) (remainingElementsCount st)
    (match settled st with
     | Pending => Rejected e
     | s => s
     end).

(** Promise [i] is settled and tells [Promise.all]; a promise that is
    never settled tells nothing. *)
Definition notify {A} (promises : list (outcome A)) (st : all_state A)
    (i : nat) : all_state A :=
  match promises !! i with
  | Some (Fulfilled x) => resolve_element i x st
  | Some (Rejected e) => reject_all e st
  | _ => st
  end.

(** [await Promise.all(promises)], the promises being settled in the
    order [completion]. *)
Definition Promise_all_outcome {A} (promises : list (outcome A))
    (completion : list nat) : outcome (list A) :=
  settled (foldl (notify promises) (all_start (length promises)) completion).

(** The promises are those of computations started one after the other,
    all running before the first one is settled.  The calls of each are
    kept together, in input order: how the calls of different computations
    interleave is not recorded. *)
Definition Promise_all {A} (tasks : list (async A)) (completion : list nat)
  : async (list A) :=
  (concat (map fst tasks), Promise_all_outcome (map snd tasks) completion).

(** Every promise that is settled appears in the completion order. *)
Definition complete {A} (promises : list (outcome A))
    (completion : list nat) : Prop :=
  ∀ i o, promises !! i = Some o → o ≠ Pending → i ∈ completion.

(** *** [processStatementFiles] *)

Definition prompt : string :=
"You are an expert financial data extraction tool. Your task is to analyze the provided image(s) of one or more bank statements and extract all transactional data.

Please adhere to the following rules strictly:
1.  Identify and list every individual transaction from all provided statements.
2.  Combine transactions from all documents into a single, continuous list.
3.  Ignore all non-transactional information such as headers, footers, summary sections, bank contact details, and marketing materials.
4.  For each transaction, extract the required fields.
5.  The final output must be a valid JSON array of objects, where each object represents a single transaction. Do not include any text, explanation, or markdown formatting before or after the JSON array.".

Definition schema : Schema :=
  TypeARRAY
    (TypeOBJECT
       [("date", TypeSTRING "Transaction date in YYYY-MM-DD format.");
        ("description",
         TypeSTRING "The full transaction description or title.");
        ("amount",
         TypeNUMBER "Transaction amount. Use a negative number for expenses/debits, and a positive number for deposits/credits.");
        ("category",
         TypeSTRING "A relevant category like 'Groceries', 'Dining', 'Salary', 'Utilities', 'Transportation', 'Shopping', 'Bills', 'Entertainment', 'Other'.");
        ("notes",
         TypeSTRING "Any relevant notes if available, otherwise an empty string.")]
       ["date"; "description"; "amount"; "category"; "notes"]).

Definition request (imageParts : list Part) : Request :=
  {| model := "gemini-2.5-flash";
     contents := imageParts ++ [Text prompt];
     responseMimeType := "application/json";
     responseSchema := schema |}.

Definition EmptyBatchError : error :=
  Error "No processable content found in the selected files.".

Definition EmptyResponseError : error :=
  Error "Received an empty response from the AI. The document might be unreadable or empty.".

Definition ServiceError : error :=
  Error "Failed to process the statement with Gemini. The document might not be a valid bank statement or there was a network issue.".

(** The first three lines: the renders of all files, their promises
    awaited together, the arrays flattened. *)
Definition imageParts_of (w : World) (files : list File)
    (completion : list nat) : async (list Part) :=
  let allPartsPromises := map (fileToGenerativePart w) files in
  allPartsArrays ← Promise_all allPartsPromises completion;
  mret (concat allPartsArrays).

Definition processStatementFiles (w : World) (files : list File)
    (completion : list nat) : async (list json) :=
  imageParts ← imageParts_of w files completion;
  if (length imageParts =? 0)%nat then throw EmptyBatchError
  else
    setLoadingMessage "Analyzing transactions with Gemini...";;
    try_catch
      (response ← call (CallGenerateContent (request imageParts))
                       (generateContent w (request imageParts));
       setLoadingMessage "Finalizing results...";;
       match text response with
       | None | Some [] => throw EmptyResponseError
       | Some textResponse => of_result (cleanAndParseJson textResponse)
       end)
      (λ e, console_error;;
            match e with
            | Error _ => throw e
            | NotAnError => throw ServiceError
            end).

(** *** Vocabulary of the properties *)

Fixpoint holes {A} (vs : list (option A)) : nat :=
  match vs with
  | [] => 0
  | None :: vs' => S (holes vs')
  | Some _ :: vs' => holes vs'
  end.

(** What holds of the record of [Promise.all promises] at all times. *)
Definition all_inv {A} (promises : list (outcome A)) (st : all_state A)
  : Prop :=
  length (values st) = length promises
  ∧ (∀ i x, values st !! i = Some (Some x) →
            promises !! i = Some (Fulfilled x))
  ∧ remainingElementsCount st = holes (values st)
  ∧ match settled st with
    | Fulfilled vs => values st = map Some vs
    | Rejected e => ∃ j, promises !! j = Some (Rejected e)
    | Pending => (0 < holes (values st))%nat
    end.

Definition service_calls (tr : list event) : list Request :=
  omap (λ ev, match ev with
              | CallGenerateContent r => Some r
              | _ => None
              end) tr.

(** A computation that never calls the extraction service. *)
Definition quiet {A} (m : async A) : Prop := service_calls m.1 = [].

Definition jpeg_part (page : PDFPage) : Part :=
  InlineData "image/jpeg" (split_comma_1 (toDataURL page)).

(** How the render of each file ends. *)
Definition renders (w : World) (files : list File)
  : list (outcome (list Part)) :=
  map (λ file, (fileToGenerativePart w file).2) files.

(** The pages of a document, all of which can be fetched, given a canvas
    context and rendered; page [k + 1] is [pages !! k]. *)
Definition pages_of (pdf : PDFDocument) (pages : list PDFPage) : Prop :=
  length pages = numPages pdf
  ∧ ∀ k page, pages !! k = Some page →
      getPage pdf (S k) = Fulfilled page ∧ getContext_2d page = true
      ∧ render page = Fulfilled ().

Definition rasterizations (tr : list event) : list (string * nat) :=
  omap (λ ev, match ev with
              | CallGetPage file i | CallRender file i => Some (file, i)
              | _ => None
              end) tr.

(** The calls of a render that ends where the document is opened. *)
Definition open_trace (file : File) : list event :=
  [SetLoadingMessage ("Loading PDF library for " +:+ name file +:+ "...");
   CallGetPdfJs (name file);
   CallArrayBuffer (name file);
   SetLoadingMessage ("Processing PDF: " +:+ name file +:+ "...");
   CallGetDocument (name file);
   ConsoleError].

(** *** Sample documents *)

Definition sample_page (dataURL : string) : PDFPage :=
  {| getContext_2d := true; render := Fulfilled (); toDataURL := dataURL |}.

Definition two_page_document : PDFDocument :=
  {| numPages := 2;
     getPage := λ i,
       match i with
       | 1%nat => Fulfilled (sample_page "data:image/jpeg;base64,AAAA")
       | 2%nat => Fulfilled (sample_page "data:image/jpeg;base64,BBBB")
       | _ => Rejected (Error "Invalid page request")
       end |}.

Definition blank_document : PDFDocument :=
  {| numPages := 0;
     getPage := λ _, Rejected (Error "Invalid page request") |}.

(** A library that opens a buffer starting with a zero byte as a
    document without pages, refuses the empty buffer and opens any other
    one as the two-page document. *)
Definition sample_pdfjs : PdfJsLib :=
  {| getDocument := λ data,
       match data with
       | [] => Rejected (Error "The PDF file is empty, i.e. its size is zero bytes.")
       | 0 :: _ => Fulfilled blank_document
       | _ => Fulfilled two_page_document
       end |}.

Definition statement_pdf : File :=
  {| name := "statement.pdf"; type := "application/pdf";
     arrayBuffer := Fulfilled [37; 80; 68; 70];
     readAsDataURL := Some "data:application/pdf;base64,JVBERg==" |}.

Definition blank_pdf : File :=
  {| name := "blank.pdf"; type := "application/pdf";
     arrayBuffer := Fulfilled [0];
     readAsDataURL := Some "data:application/pdf;base64,AA==" |}.

Definition broken_pdf : File :=
  {| name := "broken.pdf"; type := "application/pdf";
     arrayBuffer := Fulfilled [];
     readAsDataURL := Some "data:" |}.

Definition receipt_png : File :=
  {| name := "receipt.png"; type := "image/png";
     arrayBuffer := Fulfilled [137; 80; 78; 71];
     readAsDataURL := Some "data:image/png;base64,iVBORw==" |}.

Definition unreadable_png : File :=
  {| name := "unreadable.png"; type := "image/png";
     arrayBuffer := Rejected (Error "NotReadableError");
     readAsDataURL := None |}.

Definition sample_world : World :=
  {| getPdfJs := λ _, Fulfilled sample_pdfjs;
     generateContent := λ _,
       Fulfilled {| text := Some coffee_shop_response |} |}.

(** *** More vocabulary: single pages *)

(** Page [i] is fetched, given a canvas context and rendered. *)
Definition page_renders (pdf : PDFDocument) (i : nat) : option PDFPage :=
  match getPage pdf i with
  | Fulfilled page =>
      if getContext_2d page then
        match render page with
        | Fulfilled _ => Some page
        | _ => None
        end
      else None
  | _ => None
  end.

(** Page [i] cannot be fetched, gets no canvas context, or its rendering
    is rejected. *)
Definition page_fails (pdf : PDFDocument) (i : nat) : bool :=
  match getPage pdf i with
  | Fulfilled page =>
      if getContext_2d page then
        match render page with
        | Rejected _ => true
        | _ => false
        end
      else true
  | Rejected _ => true
  | Pending => false
  end.

(** The calls made for a page that renders. *)
Definition page_trace (pdf : PDFDocument) (file : File) (i : nat)
  : list event :=
  [SetLoadingMessage ("Rendering page " +:+ pretty i +:+ " of "
                      +:+ pretty (numPages pdf) +:+ " from " +:+ name file
                      +:+ "...");
   CallGetPage (name file) i;
   CallRender (name file) i].

(** The calls of the render of a PDF all of whose pages render. *)
Definition render_trace (pdf : PDFDocument) (file : File) : list event :=
  [SetLoadingMessage ("Loading PDF library for " +:+ name file +:+ "...");
   CallGetPdfJs (name file);
   CallArrayBuffer (name file);
   SetLoadingMessage ("Processing PDF: " +:+ name file +:+ "...");
   CallGetDocument (name file)]
  ++ concat (map (page_trace pdf file) (seq 1 (numPages pdf))).


(** A document of three pages, the second of which does not render. *)
Definition torn_document : PDFDocument :=
  {| numPages := 3;
     getPage := λ i,
       match i with
       | 2%nat => Fulfilled {| getContext_2d := true;
                               render := Rejected (Error "Invalid XRef entry");
                               toDataURL := "data:," |}
       | _ => Fulfilled (sample_page "data:image/jpeg;base64,CCCC")
       end |}.

Definition torn_world : World :=
  {| getPdfJs := λ _, Fulfilled {| getDocument := λ _, Fulfilled torn_document |};
     generateContent := λ _, Rejected NotAnError |}.

(** A world without network: the library does not load and the service
    cannot be reached. *)
Definition offline_world : World :=
  {| getPdfJs := λ _, Rejected (Error "PDF processing library failed to load. Please check your network connection and try again.");
     generateContent := λ _, Rejected (Error "Failed to fetch") |}.

(** A world whose service answers with no text. *)
Definition silent_world : World :=
  {| getPdfJs := λ _, Fulfilled sample_pdfjs;
     generateContent := λ _, Fulfilled {| text := None |} |}.

(** The state of things once all renders are fulfilled with a batch that
    is not empty and have told so. *)
Definition batch_ready (w : World) (files : list File)
    (completion : list nat) (pages : list (list Part)) : Prop :=
  Forall2 (λ file ps, (fileToGenerativePart w file).2 = Fulfilled ps)
    files pages
  ∧ concat pages ≠ []
  ∧ complete (renders w files) completion.

End Pipeline.

(** ** The file list: [components/FileUpload.tsx] *)

Module FileUpload.
Import Pipeline.

(** [!files.some(f => f.name === newFile.name)]. *)
Definition not_listed (files : list File) (newFile : File) : bool :=
  negb (existsb (λ f, String.eqb (name f) (name newFile)) files).

(** [handleFileSelect]: what [onFilesChange] is called with for the files
    picked in the dialog, [None] when it is not called.  Every picked file
    is looked up in the list as it was before the selection. *)
Definition handleFileSelect (files newFiles : list File)
  : option (list File) :=
  if (length newFiles =? 0)%nat then None
  else
    Some (foldl (λ updatedFiles newFile,
                   if not_listed files newFile
                   then updatedFiles ++ [newFile]
                   else updatedFiles)
            files newFiles).

(** [handleRemoveFile]: what [onFilesChange] is called with. *)
Definition handleRemoveFile (fileNameToRemove : string) (files : list File)
  : list File :=
  List.filter (λ file, negb (String.eqb (name file) fileNameToRemove)) files.

(** [handleClearFiles]. *)
Definition handleClearFiles : list File := [].

End FileUpload.

(** ** The copy as tab-separated values: [TransactionTable] *)

Module TransactionTable.
Import Decode.

Definition TAB : code_unit := 9.
Definition CR : code_unit := 13.
Definition SPACE : code_unit := 32.

Definition TypeError : error := Error "TypeError".

#[global] Instance result_ret : MRet result := λ A v, Return v.

#[global] Instance result_bind : MBind result := λ A B f r,
  match r with
  | Return v => f v
  | Throw e => Throw e
  end.

Fixpoint get_property (ps : list (jsstring * json)) (key : jsstring)
  : option json :=
  match ps with
  | [] => None
  | (k, v) :: ps' => if decide (k = key) then Some v else get_property ps' key
  end.

(** [t.key] for one of the five field names of a transaction, none of
    which any prototype defines: a property of an object, [undefined] on
    any other value, and a TypeError on [null]. *)
Definition field (t : json) (key : string) : result (option json) :=
  match t with
  | JNull => Throw TypeError
  | JObject ps => Return (get_property ps (js key))
  | _ => Return None
  end.

(** [.replace(/[\t\n\r]/g, ' ')]. *)
Definition replace_breaks (s : jsstring) : jsstring :=
  map (λ c, if (c =? TAB) || (c =? LF) || (c =? CR) then SPACE else c) s.

(** [Array.prototype.join]. *)
Fixpoint join (sep : jsstring) (items : list jsstring) : jsstring :=
  match items with
  | [] => []
  | [item] => item
  | item :: items' => item ++ sep ++ join sep items'
  end.

(** [data.map(f)] with an [f] that may throw. *)
Fixpoint map_result {A B} (f : A → result B) (l : list A)
  : result (list B) :=
  match l with
  | [] => Return []
  | x :: l' => y ← f x; ys ← map_result f l'; mret (y :: ys)
  end.

Definition headers : list jsstring :=
  [js "Date"; js "Description"; js "Amount"; js "Category"; js "Notes"].

Section ToString.

(** [value.toString()] for a value that is neither [null] nor
    [undefined], as the engine has it: the text of a string itself, the
    decimal form of a number, and so on; it throws when [toString] is not
    callable on the value. *)
Variable toString : json → result jsstring.

Definition sanitize (value : option json) : result jsstring :=
  match value with
  | None | Some JNull => Return []
  | Some v => s ← toString v; mret (replace_breaks s)
  end.

(** [t.amount.toString()]. *)
Definition amount_toString (amount : option json) : result jsstring :=
  match amount with
  | None | Some JNull => Throw TypeError
  | Some v => toString v
  end.

(** The arrow function mapped over the data. *)
Definition row (t : json) : result jsstring :=
  date ← field t "date";
  c1 ← sanitize date;
  description ← field t "description";
  c2 ← sanitize description;
  amount ← field t "amount";
  c3 ← amount_toString amount;
  category ← field t "category";
  c4 ← sanitize category;
  notes ← field t "notes";
  c5 ← sanitize notes;
  mret (join [TAB] [c1; c2; c3; c4; c5]).

Definition convertToTSV (data : list json) : result jsstring :=
  rows ← map_result row data;
  mret (join [LF] (join [TAB] headers :: rows)).

End ToString.

(** *** Vocabulary of the properties *)

(** [s.split(sep)] for a separator of one code unit. *)
Fixpoint split_on (sep : code_unit) (s : jsstring) : list jsstring :=
  match s with
  | [] => [[]]
  | c :: s' =>
      if c =? sep then [] :: split_on sep s'
      else match split_on sep s' with
           | first :: rest => (c :: first) :: rest
           | [] => [[c]]
           end
  end.

(** No tab and no line break. *)
Definition one_cell (s : jsstring) : Prop :=
  (TAB ∉ s) ∧ (LF ∉ s) ∧ (CR ∉ s).

(** A record of which every field prints and whose amount is there and
    prints as one cell, as a number does. *)
Definition printable (toString : json → result jsstring) (t : json)
  : Prop :=
  t ≠ JNull
  ∧ (∀ key v, field t key = Return (Some v) → v ≠ JNull →
              ∃ s, toString v = Return s)
  ∧ ∃ v s, field t "amount" = Return (Some v) ∧ v ≠ JNull
           ∧ toString v = Return s ∧ one_cell s.

(** A [toString] for the samples: strings and numbers as they are
    written, anything else as an object prints. *)
Definition toString_sample (v : json) : result jsstring :=
  match v with
  | JString s => Return s
  | JNumber literal => Return literal
  | JBool true => Return (js "true")
  | JBool false => Return (js "false")
  | _ => Return (js "[object Object]")
  end.

End TransactionTable.

(** ** The application state: [App.tsx] *)

Module App.
Import Decode Pipeline TransactionTable.

(** What a [catch] receives; the state below has a cell named [error]. *)
Definition thrown : Type := error.

(** The five [useState] cells. *)
Record state : Type := State {
  files : list File;
  transactions : list json;
  isLoading : bool;
  error : option string;
  loadingMessage : string;
}.

Definition initial : state := State [] [] false None EmptyString.

Definition handleFilesChange (selectedFiles : list File) (st : state)
  : state :=
  State selectedFiles [] (isLoading st) None (loadingMessage st).

Definition resetState (st : state) : state :=
  State [] [] false None (loadingMessage st).

(** [setLoadingMessage] is the progress callback handed to the service:
    the message shown is the one of the last call, [calls] being in the
    order in which they were made. *)
Definition reported (message : string) (calls : list event) : string :=
  foldl (λ shown ev, match ev with
                     | SetLoadingMessage m => m
                     | _ => shown
                     end) message calls.

(** [err instanceof Error ? err.message : 'An unknown error occurred.']. *)
Definition message_of (err : thrown) : string :=
  match err with
  | Error message => message
  | NotAnError => "An unknown error occurred."
  end.

(** The renders of the files run side by side: each one stops at its
    [await]s and goes on when the awaited promise is settled, so the code
    does not fix the order in which the calls of different renders are
    made.  A schedule names, call after call, the file whose render makes
    the next call; [traces] are the calls of the renders, each in its own
    order.  A schedule that ends early gives the calls made so far.
    Every order in which the calls can be made is that of a schedule;
    not every schedule need be one the browser can follow. *)
Fixpoint interleave (traces : list (list event)) (schedule : list nat)
  : list event :=
  match schedule with
  | [] => []
  | i :: schedule' =>
      match traces !! i with
      | Some (ev :: rest) => ev :: interleave (<[i := rest]> traces) schedule'
      | _ => interleave traces schedule'
      end
  end.

(** The calls of a run in the order in which they are made: those of the
    renders as scheduled, then those that follow [await Promise.all]. *)
Definition calls_in_order (w : World) (files : list File)
    (completion schedule : list nat) : list event :=
  let traces := map (λ file, (fileToGenerativePart w file).1) files in
  interleave traces schedule
  ++ drop (length (concat traces)) (processStatementFiles w files completion).1.

(** [handleProcessStatement]: the calls made, those of each render kept
    together, and the state it leaves behind: the one at its end, once the
    promise of the service is settled, or, if that promise is never
    settled, the one it is left waiting in; the [finally] block runs only in
    the first case.  While it waits the state changes with every message
    reported. *)
Definition handleProcessStatement (w : World) (completion schedule : list nat)
    (st : state) : list event * state :=
  if (length (files st) =? 0)%nat then
    ([], State (files st) (transactions st) (isLoading st)
           (Some "Please select one or more files first.")
           (loadingMessage st))
  else
    let run := processStatementFiles w (files st) completion in
    (run.1,
     match run.2 with
     | Fulfilled result => State (files st) result false None EmptyString
     | Rejected err =>
         State (files st) [] false (Some (message_of err)) EmptyString
     | Pending =>
         State (files st) [] true None
           (reported "Preparing your documents..."
              (calls_in_order w (files st) completion schedule))
     end).

(** *** What is rendered *)

(** What React takes between two tags: a string or a number, which it
    shows, [null], [undefined] or a boolean, for which it shows nothing,
    or an array of such; for an object it throws. *)
Fixpoint valid_child (v : json) : bool :=
  match v with
  | JObject _ => false
  | JArray elements => forallb valid_child elements
  | _ => true
  end.

Definition child_renders (value : option json) : bool :=
  match value with
  | Some v => valid_child v
  | None => true
  end.

(** [t.amount.toFixed(2)]: numbers have a [toFixed], no other value that
    [JSON.parse] builds has one, and on [undefined] and [null] the
    property access itself throws. *)
Definition toFixed_returns (amount : option json) : bool :=
  match amount with
  | Some (JNumber _) => true
  | _ => false
  end.

(** The row of [TransactionTable] for [t] is rendered without a throw.
    With a number for its amount the filters and sums of
    [TransactionSummary] do not throw either. *)
Definition row_renders (t : json) : bool :=
  match field t "date", field t "description", field t "amount",
        field t "category", field t "notes" with
  | Return date, Return description, Return amount,
    Return category, Return notes =>
      child_renders date && child_renders description
      && toFixed_returns amount
      && child_renders category && child_renders notes
  | _, _, _, _, _ => false
  end.

(** The block of the results is rendered and one of its components
    throws while it is: there is no error boundary, React takes the whole
    page down. *)
Definition crashed (st : state) : bool :=
  negb (isLoading st) && (0 <? length (transactions st))%nat
  && negb (forallb row_renders (transactions st)).

(** What the page shows: the four conditional blocks of the JSX.  The
    first two are not rendered together with the results. *)
Definition upload_shown (st : state) : bool :=
  negb (isLoading st) && (length (transactions st) =? 0)%nat.

Definition analyze_button_shown (st : state) : bool :=
  upload_shown st && (0 <? length (files st))%nat.

Definition spinner_shown (st : state) : bool := isLoading st.

(** [{error && ...}]: [null] and the empty string show nothing, and
    nothing is shown on a page that was taken down. *)
Definition error_shown (st : state) : bool :=
  match error st with
  | Some (String _ _) => negb (crashed st)
  | _ => false
  end.

Definition results_shown (st : state) : bool :=
  negb (isLoading st) && (0 <? length (transactions st))%nat
  && forallb row_renders (transactions st).

(** *** Vocabulary of the properties *)


(** A record as the schema asks for it: strings for the date, the
    description, the category and the notes, a number for the amount. *)
Definition as_asked (t : json) : Prop :=
  ∃ ps date description literal category notes,
    t = JObject ps
    ∧ get_property ps (js "date") = Some (JString date)
    ∧ get_property ps (js "description") = Some (JString description)
    ∧ get_property ps (js "amount") = Some (JNumber literal)
    ∧ get_property ps (js "category") = Some (JString category)
    ∧ get_property ps (js "notes") = Some (JString notes).




End App.

(** * Properties of the decoder *)

Module DecodeFacts.
Import Decode.

Lemma literal_char l pos c :
  literal_text l !! pos = Some c → 97 <= c <= 122.
Proof.
  destruct l;
    repeat (destruct pos as [|pos]; simpl;
            try discriminate; try (intros [= <-]; lia)).
Qed.

Lemma step_lit_char l pos stk c st' :
  step (MLit l pos, stk) c = Some st' → 97 <= c <= 122.
Proof.
  unfold step. destruct (literal_text l !! pos) as [c'|] eqn:E; [|done].
  destruct (N.eqb_spec c c') as [->|]; [|done].
  intros _. by apply literal_char in E.
Qed.

Ltac destruct_mode m :=
  destruct m as [| | | |mk|mv|ik acc|ik acc|ik acc ds|l pos|ns acc].

(** *** Backticks and raw line feeds *)

Lemma step_backtick st st' :
  step st BACKTICK = Some st' → in_string st = true ∧ in_string st' = true.
Proof.
  destruct st as [m stk]; destruct_mode m;
    try (intros H; apply step_lit_char in H; unfold BACKTICK in H; lia);
    simpl; try discriminate.
  - destruct stk as [|[] ?]; discriminate.
  - intros [= <-]; done.
  - destruct ns; simpl; try discriminate; destruct stk as [|[] ?]; discriminate.
Qed.

Lemma step_LF st st' : step st LF = Some st' → in_string st' = false.
Proof.
  destruct st as [m stk]; destruct_mode m;
    try (intros H; apply step_lit_char in H; unfold LF in H; lia);
    simpl; try discriminate; try (intros [= <-]; done).
  destruct ns; simpl; try discriminate; intros [= <-]; done.
Qed.

#[local] Arguments step : simpl never.

Lemma run_app st a b :
  run st (a ++ b) = st' ← run st a; run st' b.
Proof.
  revert st; induction a as [|c a IH]; intros st; simpl; [done|].
  destruct (step st c); simpl; auto.
Qed.

Lemma run_fence_open st rest : run st (fence_open ++ rest) = None.
Proof.
  change (fence_open ++ rest) with (BACKTICK :: (tl fence_open ++ rest)).
  simpl run at 1. destruct (step st BACKTICK) as [st'|] eqn:E; [|done].
  apply step_backtick in E as [_ E].
  destruct st' as [[] stk]; try discriminate. reflexivity.
Qed.

Lemma strip_prefix_Some p s r : strip_prefix p s = Some r → s = p ++ r.
Proof.
  revert s; induction p as [|a p IH]; intros [|b s]; simpl; try congruence.
  destruct (N.eqb_spec a b) as [->|]; [|discriminate].
  intros H; apply IH in H; by subst.
Qed.

Lemma strip_prefix_app p r : strip_prefix p (p ++ r) = Some r.
Proof. induction p as [|a p IH]; simpl; [done|]. by rewrite N.eqb_refl. Qed.

Lemma regex_match_here s group1 :
  match_here s = Some group1 → regex_match s = Some group1.
Proof. destruct s; cbn [regex_match]; by intros ->. Qed.

(** A text the reader gets through holds no json fence. *)
Lemma run_regex_match st s :
  is_Some (run st s) → regex_match s = None.
Proof.
  revert st; induction s as [|c s IH]; intros st Hrun.
  - reflexivity.
  - assert (match_here (c :: s) = None) as Hm.
    { unfold match_here.
      destruct (strip_prefix fence_open (c :: s)) as [rest|] eqn:E; [|done].
      apply strip_prefix_Some in E. rewrite E, run_fence_open in Hrun.
      by destruct Hrun. }
    simpl regex_match. rewrite Hm.
    simpl in Hrun. destruct (step st c) as [st1|]; [|by destruct Hrun].
    eauto.
Qed.

(** After a text the reader gets through, the closing fence is found
    right where the text ends. *)
Lemma run_lazy_until st s :
  is_Some (run st s) → lazy_until fence_close (s ++ fence_close) = Some s.
Proof.
  revert st; induction s as [|c s IH]; intros st Hrun.
  - reflexivity.
  - simpl in Hrun. destruct (step st c) as [st1|] eqn:E1; [|by destruct Hrun].
    simpl in Hrun.
    assert (strip_prefix fence_close ((c :: s) ++ fence_close) = None) as Hp.
    { change (strip_prefix fence_close ((c :: s) ++ fence_close)) with
        (if 10 =? c then strip_prefix (js "```") (s ++ fence_close) else None).
      destruct (N.eqb_spec 10 c) as [<-|]; [|done].
      destruct s as [|d s]; [done|].
      change (strip_prefix (js "```") ((d :: s) ++ fence_close)) with
        (if 96 =? d then strip_prefix (js "``") (s ++ fence_close) else None).
      destruct (N.eqb_spec 96 d) as [<-|]; [|done].
      apply step_LF in E1. simpl in Hrun.
      destruct (step st1 96) as [st2|] eqn:E2; [|by destruct Hrun].
      apply step_backtick in E2 as [E2 _]. congruence. }
    change (lazy_until fence_close ((c :: s) ++ fence_close)) with
      (match strip_prefix fence_close ((c :: s) ++ fence_close) with
       | Some _ => Some []
       | None => cons c <$> lazy_until fence_close (s ++ fence_close)
       end).
    rewrite Hp, (IH st1) by done. reflexivity.
Qed.

(** *** White space around the text *)

Lemma space_char c :
  is_js_space c = true → 9 <= c <= 13 ∨ c = 32 ∨ 160 <= c.
Proof.
  unfold is_js_space.
  rewrite !orb_true_iff, andb_true_iff, !N.eqb_eq, !N.leb_le. lia.
Qed.

(** With [Hc] bounding the code unit, every test against a token
    character is decided. *)
Ltac token_tests :=
  unfold QUOTE, BACKSLASH, is_digit, is_digit19, is_e in *;
  repeat match goal with
    | |- context [N.eqb ?c ?k] =>
        destruct (N.eqb_spec c k) as [?|?]; [exfalso; lia|]
    | |- context [N.leb ?a ?b] => destruct (N.leb_spec a b)
    | |- context [N.ltb ?a ?b] => destruct (N.ltb_spec a b)
    end;
  simpl; try lia; try done.

Lemma space_start_value c stk :
  is_js_space c = true → start_value c stk = None.
Proof. intros Hc%space_char. unfold start_value. token_tests. Qed.

Lemma space_num_next ns c : is_js_space c = true → num_next ns c = None.
Proof. intros Hc%space_char. destruct ns; unfold num_next; token_tests. Qed.

Lemma space_step_start c st' :
  is_js_space c = true → step (MValue, []) c = Some st' → st' = (MValue, []).
Proof.
  intros Hc. unfold step. rewrite space_start_value by done.
  destruct (is_json_ws c); congruence.
Qed.

(** A white-space code unit never completes a value: if the text may end
    after it, it could have ended before it, with the same value. *)
Lemma space_step_finish c st st' v :
  is_js_space c = true → step st c = Some st' →
  finish st' = Some v → finish st = Some v.
Proof.
  intros Hs Hstep Hfin. pose proof (space_char _ Hs) as Hc.
  destruct st as [m stk]; destruct_mode m;
    try (apply step_lit_char in Hstep; lia);
    unfold step in Hstep; try rewrite space_start_value in Hstep by done;
    try rewrite space_num_next in Hstep by done.
  - destruct (is_json_ws c); simplify_eq; done.
  - revert Hstep. destruct (is_json_ws c); [intros; simplify_eq; done|].
    token_tests.
  - revert Hstep. destruct (is_json_ws c); [intros; simplify_eq; done|].
    token_tests.
  - revert Hstep. destruct (is_json_ws c); [intros; simplify_eq; done|].
    token_tests.
  - revert Hstep. destruct (is_json_ws c); [intros; simplify_eq; done|].
    token_tests.
  - revert Hstep. unfold after_value.
    destruct (is_json_ws c); [intros; simplify_eq; done|].
    destruct stk as [|[] ?]; token_tests.
  - revert Hstep. token_tests; intros; simplify_eq; done.
  - revert Hstep. token_tests.
    destruct (escape_char c); intros; simplify_eq; done.
  - destruct (hex_val c); [|done].
    destruct (length ds =? 3)%nat; simplify_eq; done.
  - destruct (num_accepting ns) eqn:Hacc; [|done].
    revert Hstep. unfold after_value.
    destruct (is_json_ws c).
    + intros [= <-]. simpl in *. by rewrite Hacc.
    + destruct stk as [|[] ?]; token_tests.
Qed.

Lemma trimStart_split s :
  ∃ d, s = d ++ trimStart s ∧ Forall (λ c, is_js_space c = true) d.
Proof.
  induction s as [|c s (d & Hd & Hall)]; simpl.
  - by exists [].
  - destruct (is_js_space c) eqn:Hc.
    + exists (c :: d). split; [simpl; congruence|by constructor].
    + by exists [].
Qed.

Lemma trimEnd_split s :
  ∃ t, s = trimEnd s ++ t ∧ Forall (λ c, is_js_space c = true) t.
Proof.
  destruct (trimStart_split (rev s)) as (d & Hd & Hall).
  exists (rev d). split.
  - unfold trimEnd. rewrite <- rev_app_distr, <- Hd. by rewrite rev_involutive.
  - by apply Forall_rev.
Qed.

Lemma run_leading_space d s :
  Forall (λ c, is_js_space c = true) d →
  is_Some (run (MValue, []) (d ++ s)) →
  run (MValue, []) (d ++ s) = run (MValue, []) s.
Proof.
  induction 1 as [|c d Hc _ IH]; [done|]. simpl.
  destruct (step (MValue, []) c) as [st1|] eqn:E; [|by intros []].
  apply space_step_start in E; [|done]. subst st1. exact IH.
Qed.

Lemma run_trailing_space t st st' v :
  Forall (λ c, is_js_space c = true) t →
  run st t = Some st' → finish st' = Some v → finish st = Some v.
Proof.
  intros Hall. revert st. induction Hall as [|c t Hc _ IH]; intros st; simpl.
  - by intros [= <-].
  - destruct (step st c) as [st1|] eqn:E; [|done]. simpl.
    intros Hrun Hfin. eapply space_step_finish; eauto.
Qed.

(** [trim] leaves a JSON text a JSON text, with the same value. *)
Lemma JSON_parse_trim text v :
  JSON_parse text = Some v → JSON_parse (trim text) = Some v.
Proof.
  unfold JSON_parse, trim. intros Hp.
  destruct (trimStart_split text) as (d & Hd & Hdall).
  destruct (trimEnd_split (trimStart text)) as (t & Ht & Htall).
  destruct (run (MValue, []) text) as [stf|] eqn:Hrun; [|done].
  simpl in Hp.
  assert (run (MValue, []) (trimStart text) = Some stf) as Hrun'.
  { rewrite <- run_leading_space with (d := d) by (rewrite <- ?Hd, ?Hrun; done).
    by rewrite <- Hd. }
  rewrite Ht, run_app in Hrun'.
  destruct (run (MValue, []) (trimEnd (trimStart text))) as [stm|]; [|done].
  simpl in *. eapply run_trailing_space; eauto.
Qed.

Lemma trim_backticks m :
  trim (BACKTICK :: m ++ [BACKTICK]) = BACKTICK :: m ++ [BACKTICK].
Proof.
  unfold trim. change (trimStart (BACKTICK :: m ++ [BACKTICK]))
    with (BACKTICK :: m ++ [BACKTICK]).
  unfold trimEnd.
  change (BACKTICK :: m ++ [BACKTICK]) with ((BACKTICK :: m) ++ [BACKTICK]).
  rewrite rev_app_distr.
  change (trimStart (rev [BACKTICK] ++ rev (BACKTICK :: m)))
    with (rev [BACKTICK] ++ rev (BACKTICK :: m)).
  by rewrite <- rev_app_distr, rev_involutive.
Qed.

(** *** The decoder *)

(** The decoder throws no error but its own, and decides by what
    [JSON.parse] makes of its argument. *)
Lemma cleanAndParseJson_cases (text : jsstring) :
  (cleanAndParseJson text = Throw MalformedResponseError ↔
     JSON_parse (jsonString text) = None ∨
     ∃ v, JSON_parse (jsonString text) = Some v ∧ isArray v = false)
  ∧ (∀ e, cleanAndParseJson text = Throw e → e = MalformedResponseError)
  ∧ (∀ parsed, JSON_parse (jsonString text) = Some (JArray parsed) →
       cleanAndParseJson text = Return parsed).
Proof.
  unfold cleanAndParseJson.
  destruct (JSON_parse (jsonString text)) as [v|] eqn:Hparse; simpl.
  - destruct v; simpl; (split; [|split]); try (intros; congruence);
      try (split; [intros _; right; eexists; split; [reflexivity|done]|done]).
    split; [discriminate|]. intros [|(v & [= <-] & ?)]; discriminate.
  - split; [|split]; try (intros; congruence).
    split; [by left|done].
Qed.

(** C4.  For a text that is a JSON array by itself, putting it between
    the json fence lines changes nothing: both texts decode to the array. *)
Theorem cleanAndParseJson_rewrap (text : jsstring) (parsed : list json) :
  JSON_parse text = Some (JArray parsed) →
  cleanAndParseJson text = cleanAndParseJson (fence_open ++ text ++ fence_close)
  ∧ cleanAndParseJson text = Return parsed.
Proof.
  intros Hparse.
  assert (is_Some (run (MValue, []) text)) as Hrun.
  { unfold JSON_parse in Hparse.
    destruct (run (MValue, []) text); [done|discriminate]. }
  assert (jsonString text = trim text) as Hplain.
  { unfold jsonString.
    destruct (trimStart_split text) as (d & Hd & _).
    destruct (trimEnd_split (trimStart text)) as (t & Ht & _).
    rewrite Hd, Ht, !run_app in Hrun. fold (trim text) in Hrun.
    destruct (run (MValue, []) d) as [st1|]; [|by destruct Hrun].
    simpl in Hrun. rewrite run_app in Hrun.
    destruct (run st1 (trim text)) as [st2|] eqn:E; [|by destruct Hrun].
    rewrite (run_regex_match st1) by (rewrite E; done). done. }
  assert (jsonString (fence_open ++ text ++ fence_close) = text) as Hwrapped.
  { unfold jsonString.
    change (fence_open ++ text ++ fence_close) with
      (BACKTICK :: (tl fence_open ++ text ++ fence_close)).
    replace (tl fence_open ++ text ++ fence_close) with
      ((tl fence_open ++ text ++ removelast fence_close) ++ [BACKTICK])
      by (rewrite <- !app_assoc; reflexivity).
    rewrite trim_backticks.
    replace ((tl fence_open ++ text ++ removelast fence_close) ++ [BACKTICK])
      with (tl fence_open ++ text ++ fence_close)
      by (rewrite <- !app_assoc; reflexivity).
    change (BACKTICK :: tl fence_open ++ text ++ fence_close) with
      (fence_open ++ text ++ fence_close).
    assert (match_here (fence_open ++ text ++ fence_close) = Some text) as Hm.
    { unfold match_here. rewrite strip_prefix_app. simpl.
      by apply (run_lazy_until (MValue, [])). }
    by rewrite (regex_match_here _ _ Hm). }
  unfold cleanAndParseJson. rewrite Hplain, Hwrapped.
  rewrite (JSON_parse_trim _ _ Hparse), Hparse. done.
Qed.

Lemma cleanAndParseJson_rewrap_witness :
  JSON_parse coffee_shop_response =
    Some (JArray [JObject [(js "date", JString (js "2024-01-05"));
                           (js "description", JString (js "COFFEE SHOP"));
                           (js "amount", JNumber (js "-4.5"));
                           (js "category", JString (js "Dining"));
                           (js "notes", JString [])]])
  ∧ cleanAndParseJson coffee_shop_response =
      cleanAndParseJson (fence_open ++ coffee_shop_response ++ fence_close).
Proof.
  split; [vm_compute; reflexivity|].
  eapply cleanAndParseJson_rewrap. vm_compute; reflexivity.
Defined.

Lemma fenced_shape label body :
  ∃ m, fenced label body = BACKTICK :: m ++ [BACKTICK].
Proof.
  exists (js "``" ++ label ++ [LF] ++ body ++ removelast fence_close).
  unfold fenced. rewrite <- !app_assoc. reflexivity.
Qed.

Lemma lazy_until_Some close s group1 :
  lazy_until close s = Some group1 →
  ∃ post, s = group1 ++ close ++ post.
Proof.
  revert group1; induction s as [|c s IH]; intros group1;
    cbn [lazy_until];
    destruct (strip_prefix close _) as [post|] eqn:E.
  - intros [= <-]. exists post. by apply strip_prefix_Some in E.
  - done.
  - intros [= <-]. exists post. by apply strip_prefix_Some in E.
  - destruct (lazy_until close s) as [g|]; [|done].
    intros [= <-]. destruct (IH g eq_refl) as [post ->]. by exists post.
Qed.

(** Where the pattern matches, the text holds the opening fence line, the
    captured group and the closing fence line, one after the other. *)
Lemma regex_match_Some s group1 :
  regex_match s = Some group1 →
  ∃ pre post, s = pre ++ fence_open ++ group1 ++ fence_close ++ post.
Proof.
  induction s as [|c s IH]; cbn [regex_match];
    destruct (match_here _) as [g|] eqn:E; try done.
  - intros [= <-]. unfold match_here in E.
    destruct (strip_prefix fence_open (c :: s)) as [rest|] eqn:E1; [|done].
    apply strip_prefix_Some in E1. apply lazy_until_Some in E as [post ->].
    exists [], post. by rewrite E1.
  - intros (pre & post & ->)%IH. by exists (c :: pre), post.
Qed.

(** C10, as the claim has it: every text in a fence with another label
    than json is left as it is and refused.  It fails for an unlabeled
    fence around a json fence: the pattern is searched for anywhere in the
    text, the inner fence is found and its interior is decoded. *)
Lemma json_fence_inside_unlabeled_fence :
  jsonString (fenced [] (fence_open ++ js "[]" ++ fence_close)) = js "[]"
  ∧ cleanAndParseJson (fenced [] (fence_open ++ js "[]" ++ fence_close))
    = Return []
  ∧ ¬ (∀ label body : jsstring,
         label ≠ js "json" →
         jsonString (fenced label body) = fenced label body
         ∧ cleanAndParseJson (fenced label body)
           = Throw MalformedResponseError).
Proof.
  split; [vm_compute; reflexivity|]. split; [vm_compute; reflexivity|].
  intros H.
  destruct (H [] (fence_open ++ js "[]" ++ fence_close)) as [_ Hthrow];
    [discriminate|].
  vm_compute in Hthrow. discriminate.
Qed.

(** C10, amended.  The pattern matches only where the text holds the
    opening fence line with the json label, the captured group and the
    closing fence line, one after the other, wherever in the text that
    is.  A text between fence lines in which the pattern is found nowhere
    is not stripped: it is handed to [JSON.parse] as it is, which refuses
    it at its first backtick, and the decoder throws the
    invalid-data-format error. *)
Theorem unmatched_fence_raises :
  (∀ s group1 : jsstring,
     regex_match s = Some group1 →
     ∃ pre post, s = pre ++ fence_open ++ group1 ++ fence_close ++ post)
  ∧ (∀ label body : jsstring,
       regex_match (fenced label body) = None →
       jsonString (fenced label body) = fenced label body
       ∧ JSON_parse (fenced label body) = None
       ∧ cleanAndParseJson (fenced label body)
         = Throw MalformedResponseError).
Proof.
  split; [apply regex_match_Some|].
  intros label body Hnone.
  assert (jsonString (fenced label body) = fenced label body) as Hsame.
  { unfold jsonString. destruct (fenced_shape label body) as [m Hm].
    rewrite Hm in *. by rewrite trim_backticks, Hnone. }
  assert (JSON_parse (fenced label body) = None) as Hparse by reflexivity.
  repeat split; [done..|].
  unfold cleanAndParseJson. by rewrite Hsame, Hparse.
Qed.

Lemma unmatched_fence_raises_witness :
  regex_match (fenced [] (js "[]")) = None
  ∧ cleanAndParseJson (fenced [] (js "[]")) = Throw MalformedResponseError
  ∧ regex_match (fenced (js "JSON") (js "[]")) = None
  ∧ cleanAndParseJson (fenced (js "JSON") (js "[]"))
    = Throw MalformedResponseError.
Proof.
  split; [vm_compute; reflexivity|]. split.
  - apply (proj2 unmatched_fence_raises [] (js "[]")). vm_compute; reflexivity.
  - split; [vm_compute; reflexivity|].
    apply (proj2 unmatched_fence_raises (js "JSON") (js "[]")).
    vm_compute; reflexivity.
Defined.

End DecodeFacts.

(** * Properties of the backend initializer *)

Module PdfJsFacts.
Import PdfJs.

Lemma settle_loads n o st i :
  loads (settle n o st) !! i =
    if decide (i = n ∧ in_flight st n = true) then Some o
    else loads st !! i.
Proof.
  unfold settle, in_flight. destruct (loads st !! n) as [[| |]|] eqn:E; simpl;
    try (case_decide as H; [destruct H; congruence|done]).
  case_decide as H.
  - destruct H as [-> _]. apply list_lookup_insert_eq.
    by eapply lookup_lt_Some.
  - apply list_lookup_insert_ne. naive_solver.
Qed.

Lemma settle_fields n o st :
  window_pdfjsLib (settle n o st) = window_pdfjsLib st
  ∧ window_pdfjs_dist (settle n o st) = window_pdfjs_dist st
  ∧ pdfjsLibPromise (settle n o st) = pdfjsLibPromise st
  ∧ length (loads (settle n o st)) = length (loads st).
Proof.
  unfold settle. destruct (loads st !! n) as [[| |]|]; simpl; try done.
  by rewrite length_insert.
Qed.

Lemma inv_initial lib dist srcs : single_flight_inv (initial lib dist srcs).
Proof. split; simpl; intros ?; [by rewrite lookup_nil|done]. Qed.

Lemma inv_getPdfJs st : single_flight_inv st → single_flight_inv (getPdfJs st).2.
Proof.
  intros Hinv. unfold getPdfJs.
  destruct (window_pdfjsLib st) as [l|] eqn:E1;
    [|destruct (window_pdfjs_dist st) as [l|] eqn:E2];
    try (destruct (workerSrc_unset l st); simpl; [|done];
         destruct Hinv as [Ha Hb]; split; done).
  destruct (pdfjsLibPromise st) as [n|] eqn:E3; simpl; [done|].
  destruct Hinv as [Ha Hb]. split; simpl.
  - intros i Hi. rewrite E1, E2.
    destruct (decide (i < length (loads st))%nat) as [Hlt|Hge].
    + rewrite lookup_app_l in Hi by done.
      apply Ha in Hi as [Hi _]. congruence.
    + apply lookup_lt_Some in Hi. rewrite length_app in Hi. simpl in Hi.
      repeat split; try done. f_equal. lia.
  - intros n [= <-]. rewrite length_app. simpl. lia.
Qed.

(** Once the one script in flight has fired its event, none is in
    flight. *)
Lemma inv_settled n o st st0 :
  single_flight_inv st0 → loads st0 !! n = Some Pending →
  loads st = loads st0 →
  (pdfjsLibPromise st = pdfjsLibPromise st0 ∨ pdfjsLibPromise st = None) →
  o ≠ Pending →
  single_flight_inv (settle n o st).
Proof.
  intros [Ha Hb] Hn Hloads Hp Ho.
  destruct (settle_fields n o st) as (_ & _ & Ep & El).
  split.
  - intros i. rewrite settle_loads, Hloads.
    case_decide as Hd; [congruence|].
    intros Hi. destruct (Ha i Hi) as [Hpi _], (Ha n Hn) as [Hpn _].
    destruct Hd. split; [congruence|].
    unfold in_flight. by rewrite Hloads, Hn.
  - intros m. rewrite Ep, El, Hloads. destruct Hp as [-> | ->]; [auto|done].
Qed.

Lemma inv_step st ev st' :
  single_flight_inv st → step st ev = Some st' → single_flight_inv st'.
Proof.
  intros Hinv. destruct ev as [|n defines|n]; simpl.
  - intros [= <-]. by apply inv_getPdfJs.
  - unfold in_flight.
    destruct (loads st !! n) as [[| |]|] eqn:E; try done.
    intros [= <-]. unfold script_onload.
    destruct defines as [l|]; simpl;
      [|destruct (window_pdfjs_dist st)];
      eapply inv_settled; eauto.
  - unfold in_flight.
    destruct (loads st !! n) as [[| |]|] eqn:E; try done.
    intros [= <-]. unfold script_onerror.
    eapply inv_settled; eauto.
Qed.

Lemma inv_exec st evs st' :
  single_flight_inv st → exec st evs = Some st' → single_flight_inv st'.
Proof.
  revert st; induction evs as [|ev evs IH]; intros st Hinv; simpl.
  - by intros [= <-].
  - destruct (step st ev) as [st1|] eqn:E; [|done]. simpl.
    eauto using inv_step.
Qed.

Lemma reachable_inv st : reachable st → single_flight_inv st.
Proof.
  intros (lib & dist & srcs & evs & Hexec).
  eapply inv_exec; [apply inv_initial|done].
Qed.

(** The promise of a script that is loading is the one a call gets, and
    the call changes nothing. *)
Lemma getPdfJs_in_flight st i :
  single_flight_inv st → loads st !! i = Some Pending →
  getPdfJs st = (Loading i, st).
Proof.
  intros [Ha _] Hi. destruct (Ha i Hi) as (Hp & Hl & Hd).
  unfold getPdfJs. by rewrite Hl, Hd, Hp.
Qed.

(** A settled promise stays as it is. *)
Lemma settle_settled n o' st i o :
  loads st !! i = Some o → o ≠ Pending →
  loads (settle n o' st) !! i = Some o.
Proof.
  intros Hi Ho. rewrite settle_loads. case_decide as Hd; [|done].
  destruct Hd as [-> Hf]. unfold in_flight in Hf. rewrite Hi in Hf.
  by destruct o.
Qed.

Lemma step_settled st ev st' i o :
  loads st !! i = Some o → o ≠ Pending → step st ev = Some st' →
  loads st' !! i = Some o.
Proof.
  intros Hi Ho. destruct ev as [|n defines|n]; simpl.
  - intros [= <-]. unfold getPdfJs.
    destruct (window_pdfjsLib st);
      [|destruct (window_pdfjs_dist st)];
      try (destruct (workerSrc_unset _ st); done).
    destruct (pdfjsLibPromise st); simpl; [done|].
    by apply lookup_app_l_Some.
  - destruct (in_flight st n); [|done]. intros [= <-].
    unfold script_onload.
    destruct defines as [l|]; simpl; [|destruct (window_pdfjs_dist st)];
      by apply settle_settled.
  - destruct (in_flight st n); [|done]. intros [= <-].
    by apply settle_settled.
Qed.

Lemma exec_settled st evs st' i o :
  loads st !! i = Some o → o ≠ Pending → exec st evs = Some st' →
  loads st' !! i = Some o.
Proof.
  revert st; induction evs as [|ev evs IH]; intros st Hi Ho; simpl.
  - by intros [= <-].
  - destruct (step st ev) as [st1|] eqn:E; [|done]. simpl.
    eauto using step_settled.
Qed.

(** C9.  In every state the page can reach, at most one script is
    loading; a call made while it loads gets the promise of that script
    and leaves everything as it was, so no second script is started; and
    a promise once settled keeps its outcome whatever happens later, so
    all who await it see that one outcome. *)
Theorem single_flight (st : state) :
  reachable st →
  (∀ i j, loads st !! i = Some Pending → loads st !! j = Some Pending →
          i = j)
  ∧ (∀ i, loads st !! i = Some Pending → getPdfJs st = (Loading i, st))
  ∧ (∀ i o evs st', loads st !! i = Some o → o ≠ Pending →
                    exec st evs = Some st' →
                    await st' (Loading i) = o).
Proof.
  intros Hinv%reachable_inv. repeat split.
  - intros i j Hi Hj. destruct Hinv as [Ha _].
    destruct (Ha i Hi) as [Hpi _], (Ha j Hj) as [Hpj _]. congruence.
  - intros i Hi. by apply getPdfJs_in_flight.
  - intros i o evs st' Hi Ho Hexec. simpl.
    by erewrite exec_settled.
Qed.

Lemma single_flight_witness :
  reachable (getPdfJs (initial None None ∅)).2
  ∧ getPdfJs (getPdfJs (initial None None ∅)).2
    = (Loading 0, (getPdfJs (initial None None ∅)).2).
Proof.
  assert (reachable (getPdfJs (initial None None ∅)).2) as Hreach
    by (by exists None, None, ∅, [CallGetPdfJs]).
  split; [done|].
  by apply (single_flight _ Hreach).
Defined.

(** C3, on the code.  When the script loads but leaves no library object
    on [window], the promise is rejected and stays cached: the next call
    gets the same rejected promise and starts nothing.  When the script
    fails to load, the cache is cleared and the next call loads a new
    script. *)
Theorem library_not_found_latches (st : state) (i : nat) :
  reachable st → loads st !! i = Some Pending →
  ∃ st',
    step st (ScriptLoaded i None) = Some st'
    ∧ pdfjsLibPromise st' = Some i
    ∧ getPdfJs st' = (Loading i, st')
    ∧ await st' (Loading i) = Rejected LibraryNotFoundError
    ∧ ∃ st'',
        step st (ScriptFailed i) = Some st''
        ∧ pdfjsLibPromise st'' = None
        ∧ (getPdfJs st'').1 = Loading (length (loads st))
        ∧ await (getPdfJs st'').2 (Loading (length (loads st))) = Pending.
Proof.
  intros [Ha Hb]%reachable_inv Hi.
  destruct (Ha i Hi) as (Hp & Hl & Hd).
  assert (loads (settle i (Rejected LibraryNotFoundError) st)
          = <[i := Rejected LibraryNotFoundError]> (loads st)) as Hloads
    by (unfold settle; by rewrite Hi).
  eexists. split; [|split; [|split; [|split]]].
  - simpl. unfold in_flight. rewrite Hi. reflexivity.
  - unfold script_onload. rewrite Hd. unfold settle. by rewrite Hi.
  - unfold script_onload. rewrite Hd. unfold getPdfJs, settle.
    rewrite Hi. simpl. by rewrite Hl, Hd, Hp.
  - unfold script_onload. rewrite Hd. simpl. rewrite Hloads.
    rewrite list_lookup_insert_eq by (by eapply lookup_lt_Some). done.
  - eexists. split; [|split; [|split]].
    + simpl. unfold in_flight. rewrite Hi. reflexivity.
    + unfold script_onerror, settle. simpl. by rewrite Hi.
    + unfold script_onerror, getPdfJs, settle. simpl. rewrite Hi. simpl.
      rewrite Hl, Hd. simpl. by rewrite length_insert.
    + unfold script_onerror, getPdfJs, settle. simpl. rewrite Hi. simpl.
      rewrite Hl, Hd. simpl.
      rewrite lookup_app_r by (by rewrite length_insert).
      by rewrite length_insert, Nat.sub_diag.
Qed.

Lemma library_not_found_latches_witness :
  ∃ st',
    step (getPdfJs (initial None None ∅)).2 (ScriptLoaded 0 None) = Some st'
    ∧ getPdfJs st' = (Loading 0, st')
    ∧ await st' (Loading 0) = Rejected LibraryNotFoundError.
Proof.
  assert (reachable (getPdfJs (initial None None ∅)).2) as Hreach
    by (by exists None, None, ∅, [CallGetPdfJs]).
  destruct (library_not_found_latches _ 0 Hreach eq_refl)
    as (st' & H1 & _ & H2 & H3 & _).
  by exists st'.
Defined.

End PdfJsFacts.

(** * Properties of rendering and of the pipeline *)

Module PipelineFacts.
Import Decode Pipeline.

(** ** [Promise.all] *)

Section PromiseAll.
Context {A : Type}.
Implicit Types (promises : list (outcome A)) (st : all_state A).

Lemma holes_replicate n : holes (replicate n (@None A)) = n.
Proof. induction n; simpl; congruence. Qed.

Lemma holes_fill (vs : list (option A)) i (x : A) :
  vs !! i = Some None →
  holes vs = S (holes (<[i := Some x]> vs)).
Proof.
  revert i; induction vs as [|[y|] vs IH]; intros [|i]; simpl; try done.
  - intros H. by rewrite <- IH.
  - intros H. by rewrite <- IH.
Qed.

Lemma holes_none (vs : list (option A)) : holes vs = 0%nat → vs = map Some (omap id vs).
Proof.
  induction vs as [|[y|] vs IH]; simpl; try done.
  intros H. f_equal. auto.
Qed.

Lemma holes_filled (vs : list (option A)) :
  (∀ i, vs !! i ≠ Some None) → holes vs = 0%nat.
Proof.
  induction vs as [|[y|] vs IH]; simpl; intros H; try done.
  - apply IH. intros i. apply (H (S i)).
  - by destruct (H 0%nat).
Qed.

Lemma all_inv_start promises : all_inv promises (all_start (length promises)).
Proof.
  unfold all_start, all_inv; simpl.
  rewrite length_replicate, holes_replicate. repeat split.
  - intros i x [? _]%lookup_replicate. done.
  - destruct (length promises) eqn:E; simpl; [done|lia].
Qed.

Lemma all_inv_notify promises st i :
  all_inv promises st → all_inv promises (notify promises st i).
Proof.
  intros (Hlen & Hval & Hrem & Hset). unfold notify.
  destruct (promises !! i) as [[x|e|]|] eqn:Ei; try done.
  - unfold resolve_element.
    destruct (values st !! i) as [[y|]|] eqn:Ev; try done.
    pose proof (holes_fill _ _ x Ev) as Hfill.
    unfold all_inv; simpl. rewrite length_insert.
    split; [done|]. split; [|split].
    + intros j z. destruct (decide (j = i)) as [->|Hne].
      * rewrite list_lookup_insert_eq by (by eapply lookup_lt_Some).
        congruence.
      * rewrite list_lookup_insert_ne by done. apply Hval.
    + rewrite Hrem, Hfill. done.
    + rewrite Hrem, Hfill. simpl.
      destruct (holes (<[i:=Some x]> (values st))) eqn:Eh.
      * destruct (settled st) as [vs|e|] eqn:Es.
        -- rewrite Hset, list_lookup_fmap in Ev.
           by destruct (vs !! i).
        -- done.
        -- by apply holes_none.
      * destruct (settled st) as [vs|e|] eqn:Es.
        -- rewrite Hset, list_lookup_fmap in Ev.
           by destruct (vs !! i).
        -- done.
        -- lia.
  - unfold reject_all, all_inv; simpl. repeat split; try done.
    destruct (settled st); eauto.
Qed.

Lemma all_inv_foldl promises completion st :
  all_inv promises st →
  all_inv promises (foldl (notify promises) st completion).
Proof.
  revert st; induction completion as [|i l IH]; intros st H; simpl; [done|].
  by apply IH, all_inv_notify.
Qed.

(** [Promise.all] is fulfilled only when every promise is, and then with
    their values in the order of the promises. *)
Lemma Promise_all_Fulfilled promises completion vs :
  Promise_all_outcome promises completion = Fulfilled vs →
  promises = map Fulfilled vs.
Proof.
  unfold Promise_all_outcome. intros Hs.
  destruct (all_inv_foldl promises completion _ (all_inv_start promises))
    as (Hlen & Hval & _ & Hset).
  rewrite Hs in Hset. rewrite Hset in Hlen, Hval.
  rewrite length_map in Hlen.
  apply list_eq. intros i. rewrite list_lookup_fmap.
  destruct (vs !! i) as [x|] eqn:E; simpl.
  - apply Hval. by rewrite list_lookup_fmap, E.
  - apply lookup_ge_None. apply lookup_ge_None in E. lia.
Qed.

(** It is rejected only with the error of one of the promises. *)
Lemma Promise_all_Rejected promises completion e :
  Promise_all_outcome promises completion = Rejected e →
  ∃ j, promises !! j = Some (Rejected e).
Proof.
  unfold Promise_all_outcome. intros Hs.
  destruct (all_inv_foldl promises completion _ (all_inv_start promises))
    as (_ & _ & _ & Hset).
  by rewrite Hs in Hset.
Qed.

(** The returned promise is settled once. *)
Lemma notify_settled promises st i :
  settled st ≠ Pending → settled (notify promises st i) = settled st.
Proof.
  intros Hs. unfold notify.
  destruct (promises !! i) as [[x|e|]|]; try done.
  - unfold resolve_element.
    destruct (values st !! i) as [[y|]|]; try done. simpl.
    destruct (pred _); [|done]. by destruct (settled st).
  - unfold reject_all; simpl. by destruct (settled st).
Qed.

Lemma foldl_notify_settled promises completion st :
  settled st ≠ Pending →
  settled (foldl (notify promises) st completion) = settled st.
Proof.
  revert st; induction completion as [|i l IH]; intros st Hs; simpl; [done|].
  rewrite IH; rewrite notify_settled; done.
Qed.

(** A value that was stored stays. *)
Lemma notify_filled promises st i j x :
  values st !! j = Some (Some x) →
  values (notify promises st i) !! j = Some (Some x).
Proof.
  intros Hj. unfold notify.
  destruct (promises !! i) as [[y|e|]|]; try done.
  unfold resolve_element.
  destruct (values st !! i) as [[z|]|] eqn:Ei; try done. simpl.
  rewrite list_lookup_insert_ne; [done|congruence].
Qed.

Lemma foldl_notify_filled promises completion st j x :
  values st !! j = Some (Some x) →
  values (foldl (notify promises) st completion) !! j = Some (Some x).
Proof.
  revert st; induction completion as [|i l IH]; intros st Hs; simpl; [done|].
  by apply IH, notify_filled.
Qed.

(** A promise that is fulfilled and has told so has its value stored. *)
Lemma foldl_notify_stores promises completion st i x :
  all_inv promises st → i ∈ completion →
  promises !! i = Some (Fulfilled x) →
  values (foldl (notify promises) st completion) !! i = Some (Some x).
Proof.
  revert st; induction completion as [|k l IH]; intros st Hinv Hin Hi.
  - by apply elem_of_nil in Hin.
  - simpl. apply elem_of_cons in Hin as [<-|Hin].
    + apply foldl_notify_filled.
      assert (i < length (values st))%nat as Hlt.
      { destruct Hinv as [-> _]. by eapply lookup_lt_Some. }
      destruct (lookup_lt_is_Some_2 _ _ Hlt) as [v Hv].
      unfold notify. rewrite Hi. unfold resolve_element. rewrite Hv.
      destruct v as [y|]; simpl.
      * destruct Hinv as (_ & Hval & _). pose proof (Hval _ _ Hv).
        congruence.
      * by apply list_lookup_insert_eq.
    + apply IH; [by apply all_inv_notify|done..].
Qed.

(** When every promise is fulfilled and has told so, in whatever order,
    [Promise.all] is fulfilled with the values in the order of the
    promises. *)
Lemma Promise_all_fulfilled (vs : list A) completion :
  complete (map Fulfilled vs) completion →
  Promise_all_outcome (map Fulfilled vs) completion = Fulfilled vs.
Proof.
  intros Hc.
  pose proof (all_inv_foldl (map Fulfilled vs) completion _
                (all_inv_start _)) as Hinv.
  assert (holes (values (foldl (notify (map Fulfilled vs))
            (all_start (length (map Fulfilled vs))) completion)) = 0%nat)
    as Hholes.
  { apply holes_filled. intros i Hi.
    assert (i < length vs)%nat as Hlt.
    { apply lookup_lt_Some in Hi. destruct Hinv as [Hlen _].
      rewrite Hlen, length_map in Hi. done. }
    destruct (lookup_lt_is_Some_2 _ _ Hlt) as [x Hx].
    assert (map Fulfilled vs !! i = Some (Fulfilled x)) as Hp
      by (by rewrite list_lookup_fmap, Hx).
    erewrite foldl_notify_stores in Hi; [done|apply all_inv_start| |done].
    by eapply Hc. }
  destruct (Promise_all_outcome (map Fulfilled vs) completion)
    as [vs'|e|] eqn:Es.
  - apply Promise_all_Fulfilled in Es.
    f_equal. symmetry. revert Es. clear.
    revert vs'; induction vs as [|v vs IH]; intros [|v' vs']; simpl;
      intros [=]; f_equal; auto.
  - apply Promise_all_Rejected in Es as [j Hj].
    rewrite list_lookup_fmap in Hj. by destruct (vs !! j).
  - destruct Hinv as (_ & _ & _ & Hset).
    unfold Promise_all_outcome in Es. rewrite Es in Hset. lia.
Qed.

(** When a promise is rejected and has told so, [Promise.all] is
    rejected. *)
Lemma Promise_all_rejected promises completion i e :
  i ∈ completion → promises !! i = Some (Rejected e) →
  ∃ e', Promise_all_outcome promises completion = Rejected e'.
Proof.
  intros Hin Hi.
  assert (Promise_all_outcome promises completion ≠ Pending) as Hne.
  { unfold Promise_all_outcome. generalize (all_start (A:=A) (length promises)).
    induction completion as [|k l IH]; intros st.
    - by apply elem_of_nil in Hin.
    - simpl. apply elem_of_cons in Hin as [<-|Hin]; [|by apply IH].
      assert (settled (notify promises st i) ≠ Pending) as Hs.
      { unfold notify. rewrite Hi. unfold reject_all; simpl.
        by destruct (settled st). }
      by rewrite foldl_notify_settled. }
  destruct (Promise_all_outcome promises completion) as [vs|e'|] eqn:Es.
  - apply Promise_all_Fulfilled in Es. subst promises.
    rewrite list_lookup_fmap in Hi. by destruct (vs !! i).
  - by exists e'.
  - done.
Qed.

(** When no promise is rejected and one is never settled, [Promise.all]
    is never settled. *)
Lemma Promise_all_pending promises completion i :
  promises !! i = Some Pending →
  (∀ j e, promises !! j ≠ Some (Rejected e)) →
  Promise_all_outcome promises completion = Pending.
Proof.
  intros Hi Hnone.
  destruct (Promise_all_outcome promises completion) as [vs|e'|] eqn:Es.
  - apply Promise_all_Fulfilled in Es. subst promises.
    rewrite list_lookup_fmap in Hi. by destruct (vs !! i).
  - apply Promise_all_Rejected in Es as [j Hj]. by destruct (Hnone j e').
  - done.
Qed.

End PromiseAll.

(** ** The calls of a computation *)

Lemma service_calls_app tr1 tr2 :
  service_calls (tr1 ++ tr2) = service_calls tr1 ++ service_calls tr2.
Proof. apply omap_app. Qed.

Lemma bind_Fulfilled {A B} (m : async A) (f : A → async B) v :
  m.2 = Fulfilled v → m ≫= f = (m.1 ++ (f v).1, (f v).2).
Proof. unfold mbind, async_bind. by intros ->. Qed.

Lemma bind_Rejected {A B} (m : async A) (f : A → async B) e :
  m.2 = Rejected e → m ≫= f = (m.1, Rejected e).
Proof. unfold mbind, async_bind. by intros ->. Qed.

Lemma bind_Pending {A B} (m : async A) (f : A → async B) :
  m.2 = Pending → m ≫= f = (m.1, Pending).
Proof. unfold mbind, async_bind. by intros ->. Qed.

Lemma quiet_bind {A B} (m : async A) (f : A → async B) :
  quiet m → (∀ v, quiet (f v)) → quiet (m ≫= f).
Proof.
  intros Hm Hf. unfold quiet, mbind, async_bind.
  destruct (m.2) as [v| |]; simpl; try done.
  rewrite service_calls_app, Hm. apply Hf.
Qed.

Lemma quiet_try_catch {A} (body : async A) handler :
  quiet body → (∀ e, quiet (handler e)) → quiet (try_catch body handler).
Proof.
  intros Hb Hh. unfold quiet, try_catch.
  destruct (body.2) as [|e|]; simpl; try done.
  rewrite service_calls_app, Hb. apply Hh.
Qed.

Lemma quiet_render_page pdf file i : quiet (render_page pdf file i).
Proof.
  unfold render_page. apply quiet_try_catch.
  - apply quiet_bind; [done|]. intros _.
    apply quiet_bind; [done|]. intros page.
    destruct (getContext_2d page); simpl; [|done].
    apply quiet_bind; done.
  - intros e. apply quiet_bind; done.
Qed.

Lemma quiet_render_pages pdf file remaining i parts :
  quiet (render_pages pdf file remaining i parts).
Proof.
  revert i parts; induction remaining as [|r IH]; intros i parts; simpl.
  - done.
  - apply quiet_bind; [apply quiet_render_page|]. intros part. apply IH.
Qed.

(** A render makes no call to the extraction service. *)
Lemma quiet_fileToGenerativePart w file : quiet (fileToGenerativePart w file).
Proof.
  unfold fileToGenerativePart.
  destruct (String.eqb _ _).
  - apply quiet_bind; [done|]. intros _.
    apply quiet_bind; [done|]. intros pdfjsLib.
    apply quiet_bind; [done|]. intros fileBuffer.
    apply quiet_bind.
    + apply quiet_try_catch.
      * apply quiet_bind; done.
      * intros e. apply quiet_bind; done.
    + intros pdf. apply quiet_render_pages.
  - apply quiet_bind; done.
Qed.

(** ** [fileToGenerativePart] *)

(** One step of a computation whose next awaited outcome is known. *)
Ltac async_red :=
  cbv beta iota delta
    [mbind mret async_bind async_ret call setLoadingMessage console_error
     throw try_catch of_result negb];
  cbn [fst snd].

Lemma render_page_ok pdf file i page :
  getPage pdf i = Fulfilled page → getContext_2d page = true →
  render page = Fulfilled () →
  (render_page pdf file i).2 = Fulfilled (jpeg_part page).
Proof.
  intros Hpage Hctx Hrender. unfold render_page.
  async_red. rewrite Hpage. async_red. rewrite Hctx. async_red.
  rewrite Hrender. reflexivity.
Qed.

Lemma render_pages_ok pdf file pages i parts :
  (∀ k page, pages !! k = Some page →
     getPage pdf (i + k) = Fulfilled page ∧ getContext_2d page = true
     ∧ render page = Fulfilled ()) →
  (render_pages pdf file (length pages) i parts).2
  = Fulfilled (parts ++ map jpeg_part pages).
Proof.
  revert i parts; induction pages as [|page pages IH]; intros i parts Hok.
  - simpl. by rewrite app_nil_r.
  - destruct (Hok 0%nat page eq_refl) as (Hp & Hc & Hr).
    rewrite Nat.add_0_r in Hp.
    cbn [length render_pages].
    rewrite (bind_Fulfilled _ _ _ (render_page_ok _ file _ _ Hp Hc Hr)).
    cbn [snd]. rewrite IH.
    + by rewrite <- app_assoc.
    + intros k page' Hk. rewrite Nat.add_succ_comm. by apply (Hok (S k)).
Qed.

(** C5.  A PDF whose pages all render gives one part per page, in page
    order, each tagged image/jpeg and holding the data of the canvas of
    that page; a file of another type whose read delivers a data URL
    gives one part, tagged with the type of the file. *)
Theorem fileToGenerativePart_pages :
  (∀ (w : World) (file : File) pdfjsLib fileBuffer pdf pages,
     type file = "application/pdf" →
     getPdfJs w file = Fulfilled pdfjsLib →
     arrayBuffer file = Fulfilled fileBuffer →
     getDocument pdfjsLib fileBuffer = Fulfilled pdf →
     pages_of pdf pages →
     (fileToGenerativePart w file).2 = Fulfilled (map jpeg_part pages)
     ∧ length (map jpeg_part pages) = numPages pdf
     ∧ ∀ k page, pages !! k = Some page →
         getPage pdf (S k) = Fulfilled page
         ∧ map jpeg_part pages !! k
           = Some (InlineData "image/jpeg"
                     (split_comma_1 (toDataURL page))))
  ∧ (∀ (w : World) (file : File) result,
       type file ≠ "application/pdf" →
       readAsDataURL file = Some result →
       (fileToGenerativePart w file).2
       = Fulfilled [InlineData (type file) (split_comma_1 result)]).
Proof.
  split.
  - intros w file pdfjsLib fileBuffer pdf pages Htype Hlib Hbuf Hdoc
      [Hlen Hpages].
    split; [|split].
    + unfold fileToGenerativePart. rewrite Htype, String.eqb_refl.
      async_red. rewrite Hlib. async_red. rewrite Hbuf. async_red.
      rewrite Hdoc. async_red.
      rewrite <- Hlen, render_pages_ok; [done|].
      intros k page Hk. by apply Hpages.
    + by rewrite length_map.
    + intros k page Hk. split; [by apply Hpages|].
      by rewrite list_lookup_fmap, Hk.
  - intros w file result Htype Hread. unfold fileToGenerativePart.
    apply String.eqb_neq in Htype. rewrite Htype.
    async_red. rewrite Hread. reflexivity.
Qed.

Lemma fileToGenerativePart_pages_witness :
  (fileToGenerativePart sample_world statement_pdf).2
  = Fulfilled [InlineData "image/jpeg" (Some "AAAA");
               InlineData "image/jpeg" (Some "BBBB")]
  ∧ (fileToGenerativePart sample_world receipt_png).2
    = Fulfilled [InlineData "image/png" (Some "iVBORw==")].
Proof.
  split.
  - apply (proj1 fileToGenerativePart_pages sample_world statement_pdf
             sample_pdfjs [37; 80; 68; 70] two_page_document
             [sample_page "data:image/jpeg;base64,AAAA";
              sample_page "data:image/jpeg;base64,BBBB"]);
      try reflexivity.
    split; [reflexivity|].
    intros [|[|k]] page; simpl; intros [= <-]; repeat split.
  - apply (proj2 fileToGenerativePart_pages sample_world receipt_png
             "data:image/png;base64,iVBORw=="); [discriminate|reflexivity].
Defined.

(** ** The pipeline *)

Lemma renders_Forall2 w files pages :
  Forall2 (λ file ps, (fileToGenerativePart w file).2 = Fulfilled ps)
    files pages →
  renders w files = map Fulfilled pages.
Proof.
  unfold renders. induction 1 as [|file ps files pages H _ IH]; simpl;
    congruence.
Qed.

Lemma imageParts_of_outcome w files completion :
  (imageParts_of w files completion).2 =
    match Promise_all_outcome (renders w files) completion with
    | Fulfilled allPartsArrays => Fulfilled (concat allPartsArrays)
    | Rejected e => Rejected e
    | Pending => Pending
    end.
Proof.
  unfold imageParts_of, Promise_all, renders. rewrite !map_map.
  async_red. by destruct (Promise_all_outcome _ _).
Qed.

Lemma imageParts_of_trace w files completion :
  (imageParts_of w files completion).1
  = concat (map (λ file, (fileToGenerativePart w file).1) files).
Proof.
  unfold imageParts_of, Promise_all. rewrite !map_map.
  async_red. destruct (Promise_all_outcome _ _); simpl; try done.
  by rewrite app_nil_r.
Qed.

Lemma quiet_imageParts_of w files completion :
  quiet (imageParts_of w files completion).
Proof.
  unfold imageParts_of. apply quiet_bind; [|done].
  unfold quiet, Promise_all; simpl.
  induction files as [|file files IH]; simpl; [done|].
  by rewrite service_calls_app, quiet_fileToGenerativePart, IH.
Qed.

(** The service is called only with a batch that is not empty, after all
    renders were fulfilled. *)
Lemma service_calls_processStatementFiles w files completion :
  service_calls (processStatementFiles w files completion).1 =
    match (imageParts_of w files completion).2 with
    | Fulfilled (part :: parts) => [request (part :: parts)]
    | _ => []
    end.
Proof.
  unfold processStatementFiles.
  pose proof (quiet_imageParts_of w files completion) as Hq.
  unfold quiet in Hq.
  destruct ((imageParts_of w files completion).2) as [[|part parts]|e|]
    eqn:Es.
  - rewrite (bind_Fulfilled _ _ _ Es). simpl.
    by rewrite service_calls_app, Hq.
  - rewrite (bind_Fulfilled _ _ _ Es). cbn [fst Nat.eqb length].
    rewrite service_calls_app, Hq. async_red.
    destruct (generateContent w _) as [response|e|]; async_red;
      [|by destruct e|done].
    destruct (text response) as [[|c textResponse]|]; async_red;
      try done.
    destruct (cleanAndParseJson _) as [v|e]; async_red; [done|].
    by destruct e.
  - by rewrite (bind_Rejected _ _ _ Es).
  - by rewrite (bind_Pending _ _ Es).
Qed.

(** C2.  When the renders of all files are fulfilled and hold no part
    between them, as for no file at all, the pipeline is rejected with
    the no-processable-content error and the extraction service is not
    called. *)
Theorem empty_batch_rejected (w : World) (files : list File)
    (completion : list nat) (pages : list (list Part)) :
  Forall2 (λ file ps, (fileToGenerativePart w file).2 = Fulfilled ps)
    files pages →
  concat pages = [] →
  complete (renders w files) completion →
  (processStatementFiles w files completion).2 = Rejected EmptyBatchError
  ∧ service_calls (processStatementFiles w files completion).1 = []
  ∧ ∀ w' files' completion' r,
      r ∈ service_calls (processStatementFiles w' files' completion').1 →
      ∃ part parts, contents r = (part :: parts) ++ [Text prompt].
Proof.
  intros Hall Hempty Hc.
  assert ((imageParts_of w files completion).2 = Fulfilled []) as Hparts.
  { rewrite imageParts_of_outcome, (renders_Forall2 _ _ _ Hall) in *.
    by rewrite Promise_all_fulfilled, Hempty. }
  split; [|split].
  - unfold processStatementFiles. by rewrite (bind_Fulfilled _ _ _ Hparts).
  - by rewrite service_calls_processStatementFiles, Hparts.
  - intros w' files' completion' r.
    rewrite service_calls_processStatementFiles.
    destruct ((imageParts_of w' files' completion').2)
      as [[|part parts]| |]; try (by intros ?%elem_of_nil).
    intros ->%list_elem_of_singleton. by exists part, parts.
Qed.

Lemma empty_batch_rejected_witness :
  (processStatementFiles sample_world [] []).2 = Rejected EmptyBatchError
  ∧ service_calls (processStatementFiles sample_world [] []).1 = []
  ∧ (processStatementFiles sample_world [blank_pdf] [0%nat]).2
    = Rejected EmptyBatchError
  ∧ service_calls (processStatementFiles sample_world [blank_pdf] [0%nat]).1
    = [].
Proof.
  split; [|split; [|split]].
  - apply (empty_batch_rejected sample_world [] [] []);
      [constructor|reflexivity|].
    intros i o H. vm_compute in H. discriminate H.
  - apply (empty_batch_rejected sample_world [] [] []);
      [constructor|reflexivity|].
    intros i o H. vm_compute in H. discriminate H.
  - apply (empty_batch_rejected sample_world [blank_pdf] [0%nat] [[]]);
      [repeat constructor|reflexivity|].
    intros [|i] o H _; [apply list_elem_of_here|].
    vm_compute in H. discriminate H.
  - apply (empty_batch_rejected sample_world [blank_pdf] [0%nat] [[]]);
      [repeat constructor|reflexivity|].
    intros [|i] o H _; [apply list_elem_of_here|].
    vm_compute in H. discriminate H.
Defined.

(** C6.  When the renders of all files are fulfilled, the parts
    assembled are those of the first file, then those of the second, and
    so on, each in its own order, in whatever order the renders were
    settled; that batch, when it is not empty, is what the one call to the
    extraction service carries. *)
Theorem imageParts_in_input_order (w : World) (files : list File)
    (completion : list nat) (pages : list (list Part)) :
  Forall2 (λ file ps, (fileToGenerativePart w file).2 = Fulfilled ps)
    files pages →
  complete (renders w files) completion →
  (imageParts_of w files completion).2 = Fulfilled (concat pages)
  ∧ (concat pages ≠ [] →
     service_calls (processStatementFiles w files completion).1
     = [request (concat pages)]).
Proof.
  intros Hall Hc.
  assert ((imageParts_of w files completion).2 = Fulfilled (concat pages))
    as Hparts.
  { rewrite imageParts_of_outcome, (renders_Forall2 _ _ _ Hall) in *.
    by rewrite Promise_all_fulfilled. }
  split; [done|]. intros Hne.
  rewrite service_calls_processStatementFiles, Hparts.
  by destruct (concat pages).
Qed.

(** The image is read before the PDF is rendered: the parts of the PDF,
    submitted first, still come first. *)
Lemma imageParts_in_input_order_witness :
  (imageParts_of sample_world [statement_pdf; receipt_png] [1; 0]%nat).2
  = Fulfilled [InlineData "image/jpeg" (Some "AAAA");
               InlineData "image/jpeg" (Some "BBBB");
               InlineData "image/png" (Some "iVBORw==")]
  ∧ (imageParts_of sample_world [statement_pdf; receipt_png] [0; 1]%nat).2
    = Fulfilled [InlineData "image/jpeg" (Some "AAAA");
                 InlineData "image/jpeg" (Some "BBBB");
                 InlineData "image/png" (Some "iVBORw==")].
Proof.
  split.
  - apply (imageParts_in_input_order sample_world
             [statement_pdf; receipt_png] [1; 0]%nat
             [[InlineData "image/jpeg" (Some "AAAA");
               InlineData "image/jpeg" (Some "BBBB")];
              [InlineData "image/png" (Some "iVBORw==")]]);
      [repeat constructor|].
    intros [|[|i]] o H _;
      [apply list_elem_of_further, list_elem_of_here
      |apply list_elem_of_here
      |vm_compute in H; discriminate H].
  - apply (imageParts_in_input_order sample_world
             [statement_pdf; receipt_png] [0; 1]%nat
             [[InlineData "image/jpeg" (Some "AAAA");
               InlineData "image/jpeg" (Some "BBBB")];
              [InlineData "image/png" (Some "iVBORw==")]]);
      [repeat constructor|].
    intros [|[|i]] o H _;
      [apply list_elem_of_here
      |apply list_elem_of_further, list_elem_of_here
      |vm_compute in H; discriminate H].
Defined.

(** ** Documents that cannot be opened or read *)

Lemma fileToGenerativePart_open_fails w file pdfjsLib fileBuffer e :
  type file = "application/pdf" →
  getPdfJs w file = Fulfilled pdfjsLib →
  arrayBuffer file = Fulfilled fileBuffer →
  getDocument pdfjsLib fileBuffer = Rejected e →
  fileToGenerativePart w file
  = (open_trace file, Rejected (DocumentOpenError file)).
Proof.
  intros Htype Hlib Hbuf Hdoc.
  unfold fileToGenerativePart. rewrite Htype, String.eqb_refl.
  async_red. rewrite Hlib. async_red. rewrite Hbuf. async_red.
  rewrite Hdoc. reflexivity.
Qed.

Lemma renders_lookup w files i file :
  files !! i = Some file →
  renders w files !! i = Some (fileToGenerativePart w file).2.
Proof. intros H. unfold renders. by rewrite list_lookup_fmap, H. Qed.

(** With one render that is not fulfilled, the batch never is. *)
Lemma imageParts_of_not_Fulfilled w files completion file :
  file ∈ files → (∀ ps, (fileToGenerativePart w file).2 ≠ Fulfilled ps) →
  ∀ parts, (imageParts_of w files completion).2 ≠ Fulfilled parts.
Proof.
  intros [i Hi]%list_elem_of_lookup Hfile parts.
  rewrite imageParts_of_outcome.
  destruct (Promise_all_outcome _ _) as [vs|e|] eqn:Es; try done.
  apply Promise_all_Fulfilled in Es.
  apply (renders_lookup w) in Hi. rewrite Es, list_lookup_fmap in Hi.
  destruct (vs !! i) as [ps|]; [|done].
  injection Hi as Hi. by destruct (Hfile ps).
Qed.

(** C7.  When a PDF cannot be opened, its render is rejected with the
    could-not-read error that names the file, before any page is fetched
    or rendered.  A run on that file alone is rejected with that error, and
    no run that includes the file calls the extraction service. *)
Theorem corrupt_document_rejected (w : World) (file : File)
    pdfjsLib fileBuffer e :
  type file = "application/pdf" →
  getPdfJs w file = Fulfilled pdfjsLib →
  arrayBuffer file = Fulfilled fileBuffer →
  getDocument pdfjsLib fileBuffer = Rejected e →
  (fileToGenerativePart w file).2 = Rejected (DocumentOpenError file)
  ∧ rasterizations (fileToGenerativePart w file).1 = []
  ∧ (∀ completion, 0%nat ∈ completion →
       (processStatementFiles w [file] completion).2
       = Rejected (DocumentOpenError file)
       ∧ rasterizations (processStatementFiles w [file] completion).1 = []
       ∧ service_calls (processStatementFiles w [file] completion).1 = [])
  ∧ (∀ files completion, file ∈ files →
       service_calls (processStatementFiles w files completion).1 = []
       ∧ ∀ transactions,
           (processStatementFiles w files completion).2
           ≠ Fulfilled transactions).
Proof.
  intros Htype Hlib Hbuf Hdoc.
  pose proof (fileToGenerativePart_open_fails _ _ _ _ _ Htype Hlib Hbuf Hdoc)
    as Hrender.
  assert (∀ files completion, file ∈ files →
            ∀ parts, (imageParts_of w files completion).2 ≠ Fulfilled parts)
    as Hnever.
  { intros files completion Hin.
    apply (imageParts_of_not_Fulfilled _ _ _ file); [done|].
    by rewrite Hrender. }
  split; [by rewrite Hrender|]. split; [by rewrite Hrender|]. split.
  - intros completion Hin.
    assert ((imageParts_of w [file] completion).2
            = Rejected (DocumentOpenError file)) as Hparts.
    { rewrite imageParts_of_outcome. unfold renders; simpl.
      rewrite Hrender; simpl.
      destruct (Promise_all_rejected
                  [Rejected (A:=list Part) (DocumentOpenError file)]
                  completion 0 _ Hin eq_refl) as [e' He'].
      rewrite He'. apply Promise_all_Rejected in He' as [[|j] Hj]; [|done].
      by injection Hj as ->. }
    unfold processStatementFiles at 1 2.
    rewrite (bind_Rejected _ _ _ Hparts).
    split; [done|]. split.
    + rewrite imageParts_of_trace. simpl. by rewrite Hrender.
    + by rewrite service_calls_processStatementFiles, Hparts.
  - intros files completion Hin. split.
    + rewrite service_calls_processStatementFiles.
      destruct ((imageParts_of w files completion).2) as [parts| |] eqn:Es;
        try done.
      by destruct (Hnever files completion Hin parts).
    + intros transactions. unfold processStatementFiles.
      destruct ((imageParts_of w files completion).2) as [parts| |] eqn:Es.
      * by destruct (Hnever files completion Hin parts).
      * by rewrite (bind_Rejected _ _ _ Es).
      * by rewrite (bind_Pending _ _ Es).
Qed.

Lemma corrupt_document_rejected_witness :
  (processStatementFiles sample_world [broken_pdf] [0%nat]).2
  = Rejected (Error "Could not read broken.pdf. It might be corrupted or password-protected.")
  ∧ service_calls
      (processStatementFiles sample_world [receipt_png; broken_pdf]
         [0; 1]%nat).1 = [].
Proof.
  destruct (corrupt_document_rejected sample_world broken_pdf sample_pdfjs []
              (Error "The PDF file is empty, i.e. its size is zero bytes."))
    as (_ & _ & Hone & Hany); try reflexivity.
  split.
  - apply Hone, list_elem_of_here.
  - apply Hany, list_elem_of_further, list_elem_of_here.
Defined.

(** C8, on the code.  When the read of a file that is no PDF fails, the
    promise its render awaits is never settled: the render is neither
    rejected nor fulfilled, and a run on that file alone never ends. *)
Theorem unreadable_image_pending (w : World) (file : File) :
  type file ≠ "application/pdf" →
  readAsDataURL file = None →
  fileToGenerativePart w file = ([CallReadAsDataURL (name file)], Pending)
  ∧ ∀ completion, (processStatementFiles w [file] completion).2 = Pending.
Proof.
  intros Htype Hread.
  assert (fileToGenerativePart w file
          = ([CallReadAsDataURL (name file)], Pending)) as Hrender.
  { unfold fileToGenerativePart.
    apply String.eqb_neq in Htype. rewrite Htype.
    async_red. by rewrite Hread. }
  split; [done|]. intros completion.
  assert ((imageParts_of w [file] completion).2 = Pending) as Hparts.
  { rewrite imageParts_of_outcome. unfold renders; simpl.
    rewrite Hrender; simpl.
    rewrite (Promise_all_pending _ _ 0%nat); [done..|].
    by intros [|j] e'. }
  unfold processStatementFiles. by rewrite (bind_Pending _ _ Hparts).
Qed.

Lemma unreadable_image_pending_witness :
  fileToGenerativePart sample_world unreadable_png
  = ([CallReadAsDataURL "unreadable.png"], Pending)
  ∧ (processStatementFiles sample_world [unreadable_png] [0%nat]).2 = Pending.
Proof.
  destruct (unreadable_image_pending sample_world unreadable_png)
    as [Hrender Hrun]; [discriminate|reflexivity|].
  split; [exact Hrender|apply Hrun].
Defined.

End PipelineFacts.

(** * More properties of rendering *)

Module RenderFacts.
Import Decode Pipeline PipelineFacts.
#[local] Open Scope nat_scope.

Lemma rasterizations_app tr1 tr2 :
  rasterizations (tr1 ++ tr2) = rasterizations tr1 ++ rasterizations tr2.
Proof. apply omap_app. Qed.

(** The three ways the body of the loop ends for page [i]. *)
Lemma render_page_renders pdf file i page :
  page_renders pdf i = Some page →
  render_page pdf file i = (page_trace pdf file i, Fulfilled (jpeg_part page)).
Proof.
  unfold page_renders.
  destruct (getPage pdf i) as [p| |] eqn:Ep; try done.
  destruct (getContext_2d p) eqn:Ec; try done.
  destruct (render p) as [[]| |] eqn:Er; try done.
  intros [= <-]. unfold render_page.
  async_red. rewrite Ep. async_red. rewrite Ec, Er. done.
Qed.

Lemma render_page_fails pdf file i :
  page_fails pdf i = true →
  (render_page pdf file i).2 = Rejected (PageRenderError i file).
Proof.
  unfold page_fails.
  destruct (getPage pdf i) as [p| |] eqn:Ep; try done.
  - destruct (getContext_2d p) eqn:Ec.
    + destruct (render p) as [[]| |] eqn:Er; try done.
      intros _. unfold render_page.
      async_red. rewrite Ep. async_red. rewrite Ec, Er. done.
    + intros _. unfold render_page.
      async_red. rewrite Ep. async_red. rewrite Ec. done.
  - intros _. unfold render_page. async_red. rewrite Ep. done.
Qed.

Lemma render_page_cases pdf file i :
  (∃ page, page_renders pdf i = Some page)
  ∨ page_fails pdf i = true
  ∨ (render_page pdf file i).2 = Pending.
Proof.
  unfold page_renders, page_fails.
  destruct (getPage pdf i) as [p| |] eqn:Ep; [|by right; left|].
  - destruct (getContext_2d p) eqn:Ec; [|by right; left].
    destruct (render p) as [[]| |] eqn:Er; [by left; eexists|by right; left|].
    right; right. unfold render_page.
    async_red. rewrite Ep. async_red. rewrite Ec, Er. done.
  - right; right. unfold render_page. async_red. rewrite Ep. done.
Qed.

(** Whatever happens to page [i], no other page is touched. *)
Lemma render_page_rasterizations pdf file i f k :
  (f, k) ∈ rasterizations (render_page pdf file i).1 →
  f = name file ∧ k = i.
Proof.
  unfold render_page. async_red.
  destruct (getPage pdf i) as [p| |]; async_red;
    [destruct (getContext_2d p); async_red;
     [destruct (render p) as [[]| |]; async_red|]| |];
    simpl; intros Hin;
    repeat (apply elem_of_cons in Hin as [Hin|Hin];
            [by injection Hin as -> ->|]);
    by apply elem_of_nil in Hin.
Qed.

(** The loop over the pages that render, up to a page that does not. *)
Lemma render_pages_fails pdf file d remaining i parts :
  (∀ k, i ≤ k < i + d → is_Some (page_renders pdf k)) →
  page_fails pdf (i + d) = true →
  d < remaining →
  (render_pages pdf file remaining i parts).2
  = Rejected (PageRenderError (i + d) file)
  ∧ ∀ f k, (f, k) ∈ rasterizations (render_pages pdf file remaining i parts).1 →
           f = name file ∧ i ≤ k ≤ i + d.
Proof.
  revert remaining i parts; induction d as [|d IH];
    intros remaining i parts Hok Hfail Hlt;
    (destruct remaining as [|remaining]; [lia|]); cbn [render_pages].
  - rewrite Nat.add_0_r in *.
    rewrite (bind_Rejected _ _ _ (render_page_fails _ file _ Hfail)).
    split; [done|]. intros f k Hin. cbn [fst] in Hin.
    apply render_page_rasterizations in Hin as [-> ->]. split; [done|lia].
  - destruct (Hok i) as [page Hpage]; [lia|].
    rewrite (render_page_renders _ file _ _ Hpage).
    rewrite bind_Fulfilled with (v := jpeg_part page) by done.
    cbn [fst snd].
    destruct (IH remaining (S i) (parts ++ [jpeg_part page])) as [Ho Htr].
    + intros k Hk. apply Hok. lia.
    + by rewrite Nat.add_succ_comm.
    + lia.
    + rewrite Nat.add_succ_comm in Ho, Htr. split; [done|].
      intros f k. rewrite rasterizations_app, elem_of_app.
      intros [Hin|Hin]; [|apply Htr in Hin as [-> ?]; split; [done|lia]].
      simpl in Hin. rewrite !elem_of_cons, elem_of_nil in Hin.
      destruct Hin as [[= -> ->]|[[= -> ->]|[]]]; (split; [done|lia]).
Qed.

(** X1.  When a page of a PDF does not render and all pages before it
    do, the render is rejected with the error that names that page and
    the file, whatever parts were made before are dropped, and no later
    page is fetched or rendered. *)
Theorem page_failure_aborts_document (w : World) (file : File)
    pdfjsLib fileBuffer pdf (i : nat) :
  type file = "application/pdf" →
  getPdfJs w file = Fulfilled pdfjsLib →
  arrayBuffer file = Fulfilled fileBuffer →
  getDocument pdfjsLib fileBuffer = Fulfilled pdf →
  1 ≤ i ≤ numPages pdf →
  (∀ k, 1 ≤ k < i → is_Some (page_renders pdf k)) →
  page_fails pdf i = true →
  (fileToGenerativePart w file).2 = Rejected (PageRenderError i file)
  ∧ ∀ f k, (f, k) ∈ rasterizations (fileToGenerativePart w file).1 →
           f = name file ∧ 1 ≤ k ≤ i.
Proof.
  intros Htype Hlib Hbuf Hdoc Hi Hok Hfail.
  destruct (render_pages_fails pdf file (i - 1) (numPages pdf) 1 [])
    as [Ho Htr].
  - intros k Hk. apply Hok. lia.
  - by replace (1 + (i - 1)) with i by lia.
  - lia.
  - replace (1 + (i - 1)) with i in Ho, Htr by lia.
    unfold fileToGenerativePart. rewrite Htype, String.eqb_refl.
    async_red. rewrite Hlib. async_red. rewrite Hbuf. async_red.
    rewrite Hdoc. async_red. split; [done|].
    intros f k. cbn [app]. simpl rasterizations.
    apply Htr.
Qed.

Lemma page_failure_aborts_document_witness :
  (fileToGenerativePart torn_world statement_pdf).2
  = Rejected (Error "An error occurred while rendering page 2 from statement.pdf. The page might be corrupted.")
  ∧ ∀ f k,
      (f, k) ∈ rasterizations (fileToGenerativePart torn_world statement_pdf).1 →
      f = "statement.pdf" ∧ 1 ≤ k ≤ 2.
Proof.
  apply (page_failure_aborts_document torn_world statement_pdf
           {| getDocument := λ _, Fulfilled torn_document |}
           [37; 80; 68; 70]%N torn_document 2); try reflexivity.
  - simpl. lia.
  - intros k Hk. assert (k = 1) as -> by lia. by eexists.
Defined.

(** X2.  What goes wrong before a PDF is opened is passed on as it is:
    when the library cannot be had, or the bytes of the file cannot, the
    render is rejected with that very error, and the document is never
    opened. *)
Theorem early_errors_pass_through (w : World) (file : File) (e : error) :
  type file = "application/pdf" →
  (getPdfJs w file = Rejected e →
   fileToGenerativePart w file
   = ([SetLoadingMessage ("Loading PDF library for " +:+ name file +:+ "...");
       CallGetPdfJs (name file)],
      Rejected e))
  ∧ (∀ pdfjsLib, getPdfJs w file = Fulfilled pdfjsLib →
       arrayBuffer file = Rejected e →
       fileToGenerativePart w file
       = ([SetLoadingMessage ("Loading PDF library for " +:+ name file
                              +:+ "...");
           CallGetPdfJs (name file);
           CallArrayBuffer (name file)],
          Rejected e)).
Proof.
  intros Htype. split.
  - intros Hlib. unfold fileToGenerativePart.
    rewrite Htype, String.eqb_refl. async_red. by rewrite Hlib.
  - intros pdfjsLib Hlib Hbuf. unfold fileToGenerativePart.
    rewrite Htype, String.eqb_refl. async_red. rewrite Hlib. async_red.
    by rewrite Hbuf.
Qed.

Lemma early_errors_pass_through_witness :
  fileToGenerativePart offline_world statement_pdf
  = ([SetLoadingMessage "Loading PDF library for statement.pdf...";
      CallGetPdfJs "statement.pdf"],
     Rejected (Error "PDF processing library failed to load. Please check your network connection and try again.")).
Proof.
  by apply (proj1 (early_errors_pass_through offline_world statement_pdf _
                     eq_refl)).
Defined.

(** The loop, when it comes to an end. *)
Lemma render_pages_Fulfilled pdf file remaining i parts0 parts :
  (render_pages pdf file remaining i parts0).2 = Fulfilled parts →
  ∃ pages,
    length pages = remaining
    ∧ parts = parts0 ++ map jpeg_part pages
    ∧ ∀ k page, pages !! k = Some page → page_renders pdf (i + k) = Some page.
Proof.
  revert i parts0; induction remaining as [|remaining IH]; intros i parts0;
    cbn [render_pages].
  - intros [= <-]. exists []. rewrite app_nil_r. repeat split.
    intros k page. by rewrite lookup_nil.
  - destruct (render_page_cases pdf file i) as [[page Hpage]|[Hfail|Hpend]].
    + rewrite (render_page_renders _ file _ _ Hpage).
      rewrite bind_Fulfilled with (v := jpeg_part page) by done.
      cbn [snd]. intros (pages & Hlen & -> & Hpages)%IH.
      exists (page :: pages). split; [by rewrite <- Hlen|].
      split; [by rewrite <- app_assoc|].
      intros [|k] page'; simpl.
      * intros [= <-]. by rewrite Nat.add_0_r.
      * intros Hk. rewrite <- Nat.add_succ_comm. by apply Hpages.
    + by rewrite (bind_Rejected _ _ _ (render_page_fails _ file _ Hfail)).
    + by rewrite (bind_Pending _ _ Hpend).
Qed.

(** X3.  A render that is fulfilled is whole.  For a PDF a document was
    opened and the parts are those of all its pages, one per page, each
    rendered; for another file the read gave a data URL and the one part
    is made from it.  No document comes back in part. *)
Theorem fulfilled_render_is_whole (w : World) (file : File)
    (parts : list Part) :
  (fileToGenerativePart w file).2 = Fulfilled parts →
  (type file = "application/pdf" →
   ∃ pdfjsLib fileBuffer pdf,
     getPdfJs w file = Fulfilled pdfjsLib
     ∧ arrayBuffer file = Fulfilled fileBuffer
     ∧ getDocument pdfjsLib fileBuffer = Fulfilled pdf
     ∧ length parts = numPages pdf
     ∧ ∀ k, k < numPages pdf →
         ∃ page, page_renders pdf (S k) = Some page
                 ∧ parts !! k = Some (jpeg_part page))
  ∧ (type file ≠ "application/pdf" →
     ∃ result, readAsDataURL file = Some result
               ∧ parts = [InlineData (type file) (split_comma_1 result)]).
Proof.
  unfold fileToGenerativePart. intros Hf. split.
  - intros Htype. rewrite Htype, String.eqb_refl in Hf. revert Hf.
    async_red.
    destruct (getPdfJs w file) as [pdfjsLib| |]; [|done..]. async_red.
    destruct (arrayBuffer file) as [fileBuffer| |]; [|done..]. async_red.
    destruct (getDocument pdfjsLib fileBuffer) as [pdf| |] eqn:Hdoc;
      [|done..]. async_red.
    intros (pages & Hlen & -> & Hpages)%render_pages_Fulfilled.
    exists pdfjsLib, fileBuffer, pdf. cbn [app]. repeat split; try done.
    + by rewrite length_map.
    + intros k Hk. rewrite <- Hlen in Hk.
      destruct (lookup_lt_is_Some_2 _ _ Hk) as [page Hpage].
      exists page. split; [by apply (Hpages k)|].
      simpl. by rewrite list_lookup_fmap, Hpage.
  - intros Htype. apply String.eqb_neq in Htype. rewrite Htype in Hf.
    revert Hf. async_red.
    destruct (readAsDataURL file) as [result|]; [|done].
    intros [= <-]. by exists result.
Qed.

Lemma fulfilled_render_is_whole_witness :
  ∃ pdf, length [InlineData "image/jpeg" (Some "AAAA");
                 InlineData "image/jpeg" (Some "BBBB")] = numPages pdf
         ∧ getDocument sample_pdfjs [37; 80; 68; 70]%N = Fulfilled pdf.
Proof.
  destruct (fulfilled_render_is_whole sample_world statement_pdf
              [InlineData "image/jpeg" (Some "AAAA");
               InlineData "image/jpeg" (Some "BBBB")] eq_refl)
    as [Hpdf _].
  destruct (Hpdf eq_refl) as (pdfjsLib & fileBuffer & pdf & Hlib & Hbuf
                              & Hdoc & Hlen & _).
  injection Hlib as <-. injection Hbuf as <-. by exists pdf.
Defined.

Lemma render_pages_trace pdf file remaining i parts :
  (∀ k, i ≤ k < i + remaining → is_Some (page_renders pdf k)) →
  (render_pages pdf file remaining i parts).1
  = concat (map (page_trace pdf file) (seq i remaining)).
Proof.
  revert i parts; induction remaining as [|remaining IH]; intros i parts Hok;
    cbn [render_pages seq map concat].
  - done.
  - destruct (Hok i) as [page Hpage]; [lia|].
    rewrite (render_page_renders _ file _ _ Hpage).
    rewrite bind_Fulfilled with (v := jpeg_part page) by done.
    cbn [fst]. f_equal. apply IH. intros k Hk. apply Hok. lia.
Qed.

(** X4.  The progress of a PDF whose pages all render: the library is
    announced and asked for, the bytes are read, the document is announced
    and opened, and then for each page from the first to the last, in
    order, the page is announced with its number and the count of pages,
    fetched and rendered. *)
Theorem render_progress (w : World) (file : File) pdfjsLib fileBuffer pdf :
  type file = "application/pdf" →
  getPdfJs w file = Fulfilled pdfjsLib →
  arrayBuffer file = Fulfilled fileBuffer →
  getDocument pdfjsLib fileBuffer = Fulfilled pdf →
  (∀ k, 1 ≤ k ≤ numPages pdf → is_Some (page_renders pdf k)) →
  (fileToGenerativePart w file).1 = render_trace pdf file.
Proof.
  intros Htype Hlib Hbuf Hdoc Hok.
  unfold fileToGenerativePart. rewrite Htype, String.eqb_refl.
  async_red. rewrite Hlib. async_red. rewrite Hbuf. async_red.
  rewrite Hdoc. async_red. unfold render_trace. cbn [app]. do 5 f_equal.
  apply render_pages_trace. intros k Hk. apply Hok. lia.
Qed.

Lemma render_progress_witness :
  (fileToGenerativePart sample_world statement_pdf).1
  = [SetLoadingMessage "Loading PDF library for statement.pdf...";
     CallGetPdfJs "statement.pdf";
     CallArrayBuffer "statement.pdf";
     SetLoadingMessage "Processing PDF: statement.pdf...";
     CallGetDocument "statement.pdf";
     SetLoadingMessage "Rendering page 1 of 2 from statement.pdf...";
     CallGetPage "statement.pdf" 1;
     CallRender "statement.pdf" 1;
     SetLoadingMessage "Rendering page 2 of 2 from statement.pdf...";
     CallGetPage "statement.pdf" 2;
     CallRender "statement.pdf" 2].
Proof.
  apply (render_progress sample_world statement_pdf sample_pdfjs
           [37; 80; 68; 70]%N two_page_document); try reflexivity.
  intros k Hk. simpl in Hk.
  assert (k = 1 ∨ k = 2) as [-> | ->] by lia; by eexists.
Defined.

(** ** [split(',')[1]] *)







End RenderFacts.

(** * More properties of a run *)

Module RunFacts.
Import Decode Pipeline PipelineFacts.
#[local] Open Scope nat_scope.

(** ** The first rejection *)

Section FirstRejection.
Context {A : Type}.
Implicit Types (promises : list (outcome A)) (st : all_state A).

(** As long as no promise that is rejected has told so, the promise of
    [Promise.all] is not rejected. *)
Lemma foldl_notify_not_rejected promises l st :
  (∀ e, settled st ≠ Rejected e) →
  (∀ j e, j ∈ l → promises !! j ≠ Some (Rejected e)) →
  ∀ e, settled (foldl (notify promises) st l) ≠ Rejected e.
Proof.
  revert st; induction l as [|k l IH]; intros st Hst Hl; simpl; [done|].
  apply IH.
  - intros e. unfold notify.
    destruct (promises !! k) as [[x|e'|]|] eqn:Ek; try done.
    + unfold resolve_element.
      destruct (values st !! k) as [[y|]|]; try done. simpl.
      destruct (pred _); [|done]. by destruct (settled st).
    + by destruct (Hl k e' (list_elem_of_here _ _)).
  - intros j e Hj. apply Hl. by apply list_elem_of_further.
Qed.

Lemma Promise_all_first_rejection promises before i after e :
  promises !! i = Some (Rejected e) →
  (∀ j e', j ∈ before → promises !! j ≠ Some (Rejected e')) →
  Promise_all_outcome promises (before ++ i :: after) = Rejected e.
Proof.
  intros Hi Hbefore. unfold Promise_all_outcome.
  rewrite foldl_app. simpl.
  set (st := foldl (notify promises) (all_start (length promises)) before).
  assert (settled st = Pending) as Hst.
  { destruct (settled st) as [vs|e'|] eqn:Es; [| |done].
    - apply (Promise_all_Fulfilled promises before) in Es. subst promises.
      rewrite list_lookup_fmap in Hi. by destruct (vs !! i).
    - exfalso. revert Es.
      apply foldl_notify_not_rejected; [|done].
      intros e''. unfold all_start; simpl. by destruct (length promises). }
  rewrite foldl_notify_settled.
  - unfold notify. rewrite Hi. unfold reject_all; simpl. by rewrite Hst.
  - unfold notify. rewrite Hi. unfold reject_all; simpl. by rewrite Hst.
Qed.

End FirstRejection.

Lemma processStatementFiles_Rejected w files completion e :
  (imageParts_of w files completion).2 = Rejected e →
  (processStatementFiles w files completion).2 = Rejected e.
Proof.
  intros H. unfold processStatementFiles. by rewrite (bind_Rejected _ _ _ H).
Qed.

(** X6.  The first error wins.  When the render of a file is rejected and
    tells so before any other rejected render does, the run is rejected
    with the error of that render, unchanged, whatever the other renders
    do afterwards and whether they ever end; the extraction service is not
    called. *)
Theorem first_error_wins (w : World) (files : list File)
    (before after : list nat) (i : nat) (file : File) (e : error) :
  files !! i = Some file →
  (fileToGenerativePart w file).2 = Rejected e →
  (∀ j e', j ∈ before → renders w files !! j ≠ Some (Rejected e')) →
  (processStatementFiles w files (before ++ i :: after)).2 = Rejected e
  ∧ service_calls (processStatementFiles w files (before ++ i :: after)).1
    = [].
Proof.
  intros Hi He Hbefore.
  assert ((imageParts_of w files (before ++ i :: after)).2 = Rejected e)
    as Hparts.
  { rewrite imageParts_of_outcome.
    rewrite (Promise_all_first_rejection _ before i after e); [done| |done].
    by rewrite (renders_lookup _ _ _ _ Hi), He. }
  split; [by apply processStatementFiles_Rejected|].
  by rewrite service_calls_processStatementFiles, Hparts.
Qed.

(** The corrupt PDF tells of its failure while the image cannot be read
    and the good PDF is still rendering: the run ends with the error of
    the corrupt PDF. *)
Lemma first_error_wins_witness :
  (processStatementFiles sample_world
     [unreadable_png; statement_pdf; broken_pdf] [2; 1]).2
  = Rejected (Error "Could not read broken.pdf. It might be corrupted or password-protected.").
Proof.
  apply (first_error_wins sample_world
           [unreadable_png; statement_pdf; broken_pdf] [] [1] 2 broken_pdf);
    [reflexivity|reflexivity|].
  intros j e' Hj. by apply elem_of_nil in Hj.
Defined.

(** X7.  A run never ends when the render of one file never ends and no
    render is rejected, however many of the other renders are fulfilled
    and in whatever order. *)
Theorem pending_render_blocks_run (w : World) (files : list File)
    (completion : list nat) (i : nat) (file : File) :
  files !! i = Some file →
  (fileToGenerativePart w file).2 = Pending →
  (∀ j e, renders w files !! j ≠ Some (Rejected e)) →
  (processStatementFiles w files completion).2 = Pending
  ∧ service_calls (processStatementFiles w files completion).1 = [].
Proof.
  intros Hi Hp Hnone.
  assert ((imageParts_of w files completion).2 = Pending) as Hparts.
  { rewrite imageParts_of_outcome.
    rewrite (Promise_all_pending _ _ i); [done| |done].
    by rewrite (renders_lookup _ _ _ _ Hi), Hp. }
  split.
  - unfold processStatementFiles. by rewrite (bind_Pending _ _ Hparts).
  - by rewrite service_calls_processStatementFiles, Hparts.
Qed.

Lemma pending_render_blocks_run_witness :
  (processStatementFiles sample_world
     [statement_pdf; unreadable_png; receipt_png] [2; 0]).2 = Pending.
Proof.
  apply (pending_render_blocks_run sample_world
           [statement_pdf; unreadable_png; receipt_png] [2; 0] 1
           unreadable_png); [reflexivity|reflexivity|].
  intros [|[|[|j]]] e; vm_compute; discriminate.
Defined.

(** ** After the renders *)

Lemma batch_ready_parts w files completion pages :
  batch_ready w files completion pages →
  ∃ part parts,
    concat pages = part :: parts
    ∧ (imageParts_of w files completion).2 = Fulfilled (part :: parts).
Proof.
  intros (Hall & Hne & Hc).
  destruct (concat pages) as [|part parts] eqn:E; [done|].
  exists part, parts. split; [done|].
  rewrite imageParts_of_outcome, (renders_Forall2 _ _ _ Hall) in *.
  by rewrite Promise_all_fulfilled, E.
Qed.

Lemma cleanAndParseJson_Throw text e :
  cleanAndParseJson text = Throw e → e = MalformedResponseError.
Proof.
  unfold cleanAndParseJson.
  destruct (JSON_parse (jsonString text)) as [[]|]; simpl; congruence.
Qed.

(** How a run ends once the batch is ready. *)
Lemma ready_run_outcome w files completion pages :
  batch_ready w files completion pages →
  (processStatementFiles w files completion).2
  = match generateContent w (request (concat pages)) with
    | Fulfilled response =>
        match text response with
        | None | Some [] => Rejected EmptyResponseError
        | Some textResponse =>
            match cleanAndParseJson textResponse with
            | Return transactions => Fulfilled transactions
            | Throw _ => Rejected MalformedResponseError
            end
        end
    | Rejected (Error message) => Rejected (Error message)
    | Rejected NotAnError => Rejected ServiceError
    | Pending => Pending
    end.
Proof.
  intros (part & parts & Hcat & Hparts)%batch_ready_parts.
  rewrite Hcat.
  unfold processStatementFiles. rewrite (bind_Fulfilled _ _ _ Hparts).
  cbn [fst snd length Nat.eqb]. async_red.
  destruct (generateContent w (request (part :: parts)))
    as [response|[message|]|]; async_red; try done.
  destruct (text response) as [[|c textResponse]|]; async_red; try done.
  destruct (cleanAndParseJson (c :: textResponse)) as [v|e] eqn:E;
    async_red; [done|].
  apply cleanAndParseJson_Throw in E. by subst e.
Qed.

(** X8.  When the batch is ready and the service answers with a text
    that is not empty, the run ends as the decoder does on that text:
    fulfilled with the array it returns, or rejected with its
    invalid-data-format error. *)
Theorem run_decodes_response (w : World) (files : list File)
    (completion : list nat) (pages : list (list Part))
    (response : Response) (c : code_unit) (textResponse : jsstring) :
  batch_ready w files completion pages →
  generateContent w (request (concat pages)) = Fulfilled response →
  text response = Some (c :: textResponse) →
  (processStatementFiles w files completion).2
  = match cleanAndParseJson (c :: textResponse) with
    | Return transactions => Fulfilled transactions
    | Throw _ => Rejected MalformedResponseError
    end.
Proof.
  intros (part & parts & Hcat & Hparts)%batch_ready_parts Hgen Htext.
  rewrite Hcat in Hgen.
  unfold processStatementFiles. rewrite (bind_Fulfilled _ _ _ Hparts).
  cbn [fst snd length Nat.eqb]. async_red. rewrite Hgen. async_red.
  rewrite Htext.
  destruct (cleanAndParseJson (c :: textResponse)) as [v|e] eqn:E;
    async_red; [done|].
  apply cleanAndParseJson_Throw in E. by subst e.
Qed.

Lemma run_decodes_response_witness :
  ∃ record,
    (processStatementFiles sample_world [statement_pdf; receipt_png] [1; 0]).2
    = Fulfilled [JObject record]
    ∧ length record = 5.
Proof.
  eexists. split.
  - etransitivity.
    + apply (run_decodes_response sample_world [statement_pdf; receipt_png]
               [1; 0]
               [[InlineData "image/jpeg" (Some "AAAA");
                 InlineData "image/jpeg" (Some "BBBB")];
                [InlineData "image/png" (Some "iVBORw==")]]
               {| text := Some coffee_shop_response |} 32%N
               (tl coffee_shop_response)); try reflexivity.
      split; [repeat constructor|]. split; [discriminate|].
      intros [|[|j]] o H _;
        [apply list_elem_of_further, list_elem_of_here
        |apply list_elem_of_here
        |vm_compute in H; discriminate H].
    + vm_compute. reflexivity.
  - reflexivity.
Defined.

(** X9.  When the batch is ready and the service answers without text or
    with the empty text, the run is rejected with the empty-response
    error; the decoder is not asked. *)
Theorem empty_response_rejected (w : World) (files : list File)
    (completion : list nat) (pages : list (list Part))
    (response : Response) :
  batch_ready w files completion pages →
  generateContent w (request (concat pages)) = Fulfilled response →
  text response = None ∨ text response = Some [] →
  (processStatementFiles w files completion).2 = Rejected EmptyResponseError.
Proof.
  intros (part & parts & Hcat & Hparts)%batch_ready_parts Hgen Htext.
  rewrite Hcat in Hgen.
  unfold processStatementFiles. rewrite (bind_Fulfilled _ _ _ Hparts).
  cbn [fst snd length Nat.eqb]. async_red. rewrite Hgen. async_red.
  by destruct Htext as [-> | ->].
Qed.

Lemma empty_response_rejected_witness :
  (processStatementFiles silent_world [receipt_png] [0]).2
  = Rejected (Error "Received an empty response from the AI. The document might be unreadable or empty.").
Proof.
  apply (empty_response_rejected silent_world [receipt_png] [0]
           [[InlineData "image/png" (Some "iVBORw==")]]
           {| text := None |}); [|reflexivity|by left].
  split; [repeat constructor|]. split; [discriminate|].
  intros [|j] o H _; [apply list_elem_of_here|vm_compute in H; discriminate H].
Defined.

(** X10.  When the batch is ready and the call to the service is
    rejected, the run is rejected: with the error of the service as it is
    when that is an [Error], with the general failed-to-process error when
    it is some other value.  When the service never answers the run never
    ends. *)
Theorem service_failure (w : World) (files : list File)
    (completion : list nat) (pages : list (list Part)) :
  batch_ready w files completion pages →
  (∀ message,
     generateContent w (request (concat pages)) = Rejected (Error message) →
     (processStatementFiles w files completion).2 = Rejected (Error message))
  ∧ (generateContent w (request (concat pages)) = Rejected NotAnError →
     (processStatementFiles w files completion).2 = Rejected ServiceError)
  ∧ (generateContent w (request (concat pages)) = Pending →
     (processStatementFiles w files completion).2 = Pending).
Proof.
  intros (part & parts & Hcat & Hparts)%batch_ready_parts.
  rewrite Hcat.
  repeat split; [intros message Hgen|intros Hgen..];
    unfold processStatementFiles; rewrite (bind_Fulfilled _ _ _ Hparts);
    cbn [fst snd length Nat.eqb]; async_red; by rewrite Hgen.
Qed.

Lemma service_failure_witness :
  (processStatementFiles offline_world [receipt_png] [0]).2
  = Rejected (Error "Failed to fetch")
  ∧ (processStatementFiles torn_world [receipt_png] [0]).2
    = Rejected (Error "Failed to process the statement with Gemini. The document might not be a valid bank statement or there was a network issue.").
Proof.
  assert (∀ w, batch_ready w [receipt_png] [0]
                 [[InlineData "image/png" (Some "iVBORw==")]]) as Hready.
  { intros w. split; [repeat constructor|]. split; [discriminate|].
    intros [|j] o H _; [apply list_elem_of_here|].
    vm_compute in H; discriminate H. }
  split.
  - by apply (proj1 (service_failure offline_world [receipt_png] [0] _
                       (Hready _))).
  - by apply (proj1 (proj2 (service_failure torn_world [receipt_png] [0] _
                              (Hready _)))).
Defined.

(** X11.  In any run the extraction service is called at most once, and
    when it is called every render was fulfilled and the request is the
    fixed one: the model, the parts of all files in input order followed
    by the prompt, JSON as the answer type and the schema of the
    records. *)
Theorem at_most_one_service_call (w : World) (files : list File)
    (completion : list nat) :
  length (service_calls (processStatementFiles w files completion).1) ≤ 1
  ∧ ∀ r, r ∈ service_calls (processStatementFiles w files completion).1 →
      ∃ pages,
        renders w files = map Fulfilled pages
        ∧ r = {| model := "gemini-2.5-flash";
                 contents := concat pages ++ [Text prompt];
                 responseMimeType := "application/json";
                 responseSchema := schema |}.
Proof.
  rewrite service_calls_processStatementFiles.
  destruct ((imageParts_of w files completion).2) as [[|part parts]| |] eqn:E;
    simpl; (split; [lia|]); try (by intros r ?%elem_of_nil).
  intros r ->%list_elem_of_singleton.
  rewrite imageParts_of_outcome in E.
  destruct (Promise_all_outcome _ _) as [pages| |] eqn:Es; try done.
  apply Promise_all_Fulfilled in Es. injection E as E.
  exists pages. split; [done|]. unfold request. by rewrite E.
Qed.

End RunFacts.

(** * More properties of the backend initializer *)

Module BackendFacts.
Import PdfJs PdfJsFacts.
#[local] Open Scope nat_scope.

Lemma workerSrc_unset_set l st : workerSrc_unset l (set_workerSrc l st) = false.
Proof.
  unfold workerSrc_unset, set_workerSrc; simpl. by rewrite lookup_insert_eq.
Qed.

Lemma handle_inv_initial lib dist srcs : handle_inv (initial lib dist srcs).
Proof. intros i l. simpl. by rewrite lookup_nil. Qed.

Lemma handle_inv_getPdfJs st : handle_inv st → handle_inv (getPdfJs st).2.
Proof.
  intros Hh i l. unfold getPdfJs.
  destruct (window_pdfjsLib st) as [l1|] eqn:E1;
    [|destruct (window_pdfjs_dist st) as [l1|] eqn:E2].
  - destruct (workerSrc_unset l1 st) eqn:Eu; simpl; [|by apply Hh].
    intros Hi. destruct (Hh i l Hi) as [Hw Hs]. rewrite E1 in *.
    split; [done|]. injection Hw as ->.
    unfold workerSrc_unset in Eu. rewrite Hs in Eu. done.
  - destruct (workerSrc_unset l1 st); simpl; [|by apply Hh].
    intros Hi. destruct (Hh i l Hi) as [Hw Hs]. congruence.
  - destruct (pdfjsLibPromise st); simpl; [by apply Hh|].
    intros Hi. assert (loads st !! i = Some (Fulfilled l)) as Hi'.
    { apply lookup_app_Some in Hi as [Hi|[_ Hi]]; [done|].
      by destruct (i - length (loads st)) as [|[]]. }
    destruct (Hh i l Hi') as [Hw Hs]. congruence.
Qed.

Lemma handle_inv_step st ev st' :
  single_flight_inv st → handle_inv st → step st ev = Some st' →
  handle_inv st'.
Proof.
  intros [Ha Hb] Hh. destruct ev as [|n defines|n]; simpl.
  - intros [= <-]. by apply handle_inv_getPdfJs.
  - unfold in_flight.
    destruct (loads st !! n) as [[| |]|] eqn:En; try done.
    destruct (Ha n En) as (Hp & Hl & Hd).
    assert (∀ i l, loads st !! i ≠ Some (Fulfilled l)) as Hnone.
    { intros i l Hi. destruct (Hh i l Hi) as [Hw _]. congruence. }
    intros [= <-] i l. unfold script_onload.
    destruct defines as [d|]; simpl; [|rewrite Hd];
      rewrite settle_loads; case_decide as Hdec; simpl;
      try (intros Hi; by destruct (Hnone i l)); try done.
    intros [= <-]. unfold settle; simpl. rewrite En; simpl.
    split; [done|]. by rewrite lookup_insert_eq.
  - unfold in_flight.
    destruct (loads st !! n) as [[| |]|] eqn:En; try done.
    intros [= <-] i l. unfold script_onerror.
    rewrite settle_loads; case_decide as Hdec; simpl; [done|].
    intros Hi. destruct (Hh i l Hi) as [Hw Hs].
    unfold settle; simpl. by rewrite En.
Qed.

Lemma reachable_handle_inv st : reachable st → handle_inv st.
Proof.
  intros (lib & dist & srcs & evs & Hexec).
  assert (single_flight_inv (initial lib dist srcs)) as Hs
    by apply inv_initial.
  assert (handle_inv (initial lib dist srcs)) as Hh
    by apply handle_inv_initial.
  revert Hexec Hs Hh. generalize (initial lib dist srcs).
  induction evs as [|ev evs IH]; intros s0; simpl.
  - by intros [= <-].
  - destruct (step s0 ev) as [s1|] eqn:E; [|done]. simpl.
    intros Hexec Hs Hh. apply (IH s1); eauto using inv_step, handle_inv_step.
Qed.

(** X12.  One backend handle for all.  In every state the page can
    reach, when the promise of a script was fulfilled with a library
    object, that object is [window.pdfjsLib], its worker source is the CDN
    worker, and a call gets a promise resolved with that same object and
    changes nothing: who awaited the load and who comes later hold the
    same library, and every fulfilled load holds the same one. *)
Theorem one_backend_handle (st : state) (i : nat) (l : lib_ref) :
  reachable st →
  loads st !! i = Some (Fulfilled l) →
  window_pdfjsLib st = Some l
  ∧ workerSrc st !! l = Some PDF_WORKER_CDN_URL
  ∧ getPdfJs st = (Resolved l, st)
  ∧ ∀ j l', loads st !! j = Some (Fulfilled l') → l' = l.
Proof.
  intros Hh%reachable_handle_inv Hi.
  destruct (Hh i l Hi) as [Hw Hs]. repeat split; try done.
  - unfold getPdfJs. rewrite Hw.
    unfold workerSrc_unset. by rewrite Hs.
  - intros j l' Hj. destruct (Hh j l' Hj) as [Hw' _]. congruence.
Qed.

Lemma one_backend_handle_witness :
  ∃ st, exec (initial None None ∅) [CallGetPdfJs; ScriptLoaded 0 (Some 7)]
        = Some st
        ∧ getPdfJs st = (Resolved 7, st).
Proof.
  eexists. split; [reflexivity|].
  eapply (one_backend_handle _ 0 7); [|reflexivity].
  by exists None, None, ∅, [CallGetPdfJs; ScriptLoaded 0 (Some 7)].
Defined.

(** X13.  After a failed load a retry starts from scratch.  When the
    script in flight fails to load, the next call appends a new script;
    when that one loads with the library, its promise is fulfilled and
    later calls resolve at once, while the promise of the failed script
    stays rejected with the load error. *)
Theorem retry_after_load_error (st : state) (i : nat) (l : lib_ref) :
  reachable st →
  loads st !! i = Some Pending →
  ∃ st',
    exec st [ScriptFailed i; CallGetPdfJs;
             ScriptLoaded (length (loads st)) (Some l)] = Some st'
    ∧ length (loads st') = S (length (loads st))
    ∧ await st' (Loading i) = Rejected LibraryLoadError
    ∧ await st' (Loading (length (loads st))) = Fulfilled l
    ∧ getPdfJs st' = (Resolved l, st').
Proof.
  intros Hreach Hi.
  destruct (reachable_inv _ Hreach) as [Ha Hb].
  destruct (Ha i Hi) as (Hp & Hl & Hd).
  pose proof (lookup_lt_Some _ _ _ Hi) as Hlt.
  set (ls := <[i := Rejected LibraryLoadError]> (loads st)).
  assert (length ls = length (loads st)) as Hlen by apply length_insert.
  assert (script_onerror i st
          = State None None (workerSrc st) None ls) as E1.
  { unfold script_onerror, settle; simpl. rewrite Hi.
    unfold set_loads; simpl. by rewrite Hl, Hd. }
  assert ((getPdfJs (State None None (workerSrc st) None ls)).2
          = State None None (workerSrc st) (Some (length ls))
              (ls ++ [Pending])) as E2 by done.
  eexists. split.
  - simpl. unfold in_flight. rewrite Hi. simpl. rewrite E1, E2.
    unfold in_flight; simpl.
    rewrite <- Hlen, lookup_app_r, Nat.sub_diag by done. simpl.
    unfold script_onload, settle; simpl.
    rewrite lookup_app_r, Nat.sub_diag by done. simpl. reflexivity.
  - simpl. rewrite length_insert, length_app, Hlen. simpl.
    split; [lia|]. split; [|split].
    + rewrite list_lookup_insert_ne by lia.
      rewrite lookup_app_l by lia. unfold ls.
      by rewrite list_lookup_insert_eq.
    + rewrite <- Hlen, list_lookup_insert_eq; [done|].
      rewrite length_app. simpl. lia.
    + unfold getPdfJs, workerSrc_unset; simpl.
      by rewrite lookup_insert_eq.
Qed.

Lemma retry_after_load_error_witness :
  ∃ st',
    exec (initial None None ∅)
      [CallGetPdfJs; ScriptFailed 0; CallGetPdfJs; ScriptLoaded 1 (Some 7)]
    = Some st'
    ∧ await st' (Loading 0) = Rejected LibraryLoadError
    ∧ await st' (Loading 1) = Fulfilled 7.
Proof.
  assert (reachable (getPdfJs (initial None None ∅)).2) as Hreach
    by (by exists None, None, ∅, [CallGetPdfJs]).
  destruct (retry_after_load_error _ 0 7 Hreach eq_refl)
    as (st' & Hexec & _ & Hold & Hnew & _).
  by exists st'.
Defined.

(** A page that has the library on [window] from the start. *)
Lemma preloaded_step lib dist l st ev st' :
  match lib with Some l' => Some l' | None => dist end = Some l →
  window_pdfjsLib st = lib → window_pdfjs_dist st = dist →
  loads st = [] → pdfjsLibPromise st = None →
  step st ev = Some st' →
  window_pdfjsLib st' = lib ∧ window_pdfjs_dist st' = dist
  ∧ loads st' = [] ∧ pdfjsLibPromise st' = None
  ∧ (∀ src, workerSrc st !! l = Some src → src ≠ EmptyString →
            workerSrc st' !! l = Some src)
  ∧ (ev = CallGetPdfJs → workerSrc_unset l st' = false).
Proof.
  intros Hl Hw Hd Hloads Hp. destruct ev as [|n defines|n]; simpl.
  - intros [= <-]. unfold getPdfJs. rewrite Hw, Hd, Hl.
    destruct (workerSrc_unset l st) eqn:Eu; simpl; repeat split; try done.
    + intros src Hsrc Hne. unfold workerSrc_unset in Eu. rewrite Hsrc in Eu.
      by apply bool_decide_eq_true in Eu.
    + intros _. apply workerSrc_unset_set.
  - unfold in_flight. by rewrite Hloads, lookup_nil.
  - unfold in_flight. by rewrite Hloads, lookup_nil.
Qed.

(** X14.  When the page already has the library on [window], the module
    never loads a script of its own: whatever happens, no promise is made
    and none is cached, every call resolves at once with the library of
    the page, and a worker source the page has set is left as it is. *)
Theorem preloaded_library (lib dist : option lib_ref) (l : lib_ref)
    (srcs : gmap lib_ref string) (evs : list event) (st : state) :
  match lib with Some l' => Some l' | None => dist end = Some l →
  exec (initial lib dist srcs) evs = Some st →
  loads st = [] ∧ pdfjsLibPromise st = None
  ∧ (getPdfJs st).1 = Resolved l
  ∧ (∀ src, srcs !! l = Some src → src ≠ EmptyString →
            workerSrc st !! l = Some src)
  ∧ (CallGetPdfJs ∈ evs → workerSrc_unset l st = false).
Proof.
  intros Hl.
  assert (∀ s0,
    window_pdfjsLib s0 = lib → window_pdfjs_dist s0 = dist →
    loads s0 = [] → pdfjsLibPromise s0 = None →
    exec s0 evs = Some st →
    window_pdfjsLib st = lib ∧ window_pdfjs_dist st = dist
    ∧ loads st = [] ∧ pdfjsLibPromise st = None
    ∧ (∀ src, workerSrc s0 !! l = Some src → src ≠ EmptyString →
              workerSrc st !! l = Some src)
    ∧ ((workerSrc_unset l s0 = false ∨ CallGetPdfJs ∈ evs) →
       workerSrc_unset l st = false)) as Hgen.
  { induction evs as [|ev evs IH]; intros s0 Hw Hd Hloads Hp; simpl.
    - intros [= <-]. repeat split; try done.
      intros [?|?%elem_of_nil]; done.
    - destruct (step s0 ev) as [s1|] eqn:E; [|done]. simpl. intros Hexec.
      destruct (preloaded_step _ _ _ _ _ _ Hl Hw Hd Hloads Hp E)
        as (Hw1 & Hd1 & Hloads1 & Hp1 & Hsrc1 & Hset1).
      destruct (IH s1 Hw1 Hd1 Hloads1 Hp1 Hexec)
        as (Hw2 & Hd2 & Hloads2 & Hp2 & Hsrc2 & Hset2).
      repeat split; try done.
      + intros src Hsrc Hne. apply Hsrc2; [|done]. by apply Hsrc1.
      + intros [Hu|Hin]; apply Hset2.
        * left. destruct ev; simpl in E.
          -- by apply Hset1.
          -- unfold in_flight in E. by rewrite Hloads, lookup_nil in E.
          -- unfold in_flight in E. by rewrite Hloads, lookup_nil in E.
        * apply elem_of_cons in Hin as [<-|Hin]; [left|by right].
          by apply Hset1. }
  intros Hexec.
  destruct (Hgen (initial lib dist srcs)) as (Hw & Hd & Hloads & Hp & Hsrc
                                              & Hset); try done.
  repeat split; try done.
  - unfold getPdfJs. by rewrite Hw, Hd, Hl.
  - intros Hin. apply Hset. by right.
Qed.

Lemma preloaded_library_witness :
  ∃ st,
    exec (initial (Some 3) None {[3 := "/vendor/pdf.worker.js"]})
      [CallGetPdfJs; CallGetPdfJs] = Some st
    ∧ loads st = []
    ∧ workerSrc st !! 3 = Some "/vendor/pdf.worker.js".
Proof.
  eexists. split; [reflexivity|].
  destruct (preloaded_library (Some 3) None 3
              {[3 := "/vendor/pdf.worker.js"]} [CallGetPdfJs; CallGetPdfJs]
              _ eq_refl eq_refl) as (Hloads & _ & _ & Hsrc & _).
  split; [exact Hloads|]. by apply Hsrc.
Defined.

End BackendFacts.

(** * More properties of the decoder *)

Module FenceFacts.
Import Decode DecodeFacts.
#[local] Open Scope N_scope.

(** ** White space around the response *)

Lemma trimStart_app_space d s :
  Forall (λ c, is_js_space c = true) d → trimStart (d ++ s) = trimStart s.
Proof. induction 1 as [|c d Hc _ IH]; simpl; [done|]. by rewrite Hc. Qed.

Lemma trimStart_space d :
  Forall (λ c, is_js_space c = true) d → trimStart d = [].
Proof.
  intros H. rewrite <- (app_nil_r d). by rewrite trimStart_app_space.
Qed.

Lemma trimStart_app s t :
  trimStart s ≠ [] → trimStart (s ++ t) = trimStart s ++ t.
Proof.
  induction s as [|c s IH]; simpl; [done|].
  destruct (is_js_space c); [apply IH|done].
Qed.

Lemma trimStart_nil_space s :
  trimStart s = [] → Forall (λ c, is_js_space c = true) s.
Proof.
  induction s as [|c s IH]; simpl; [constructor|].
  destruct (is_js_space c) eqn:E; [|done]. intros H. constructor; auto.
Qed.

Lemma trimEnd_app_space s t :
  Forall (λ c, is_js_space c = true) t → trimEnd (s ++ t) = trimEnd s.
Proof.
  intros H. unfold trimEnd. rewrite rev_app_distr.
  rewrite trimStart_app_space; [done|]. by apply Forall_rev.
Qed.

Lemma trimEnd_app s t :
  trimEnd t ≠ [] → trimEnd (s ++ t) = s ++ trimEnd t.
Proof.
  unfold trimEnd. intros H. rewrite rev_app_distr, trimStart_app.
  - by rewrite rev_app_distr, rev_involutive.
  - intros E. rewrite E in H. done.
Qed.

Lemma trimEnd_nil_space t :
  trimEnd t = [] → Forall (λ c, is_js_space c = true) t.
Proof.
  unfold trimEnd. intros H.
  assert (trimStart (rev t) = []) as H'.
  { apply (f_equal (@rev _)) in H. by rewrite rev_involutive in H. }
  apply trimStart_nil_space in H'. rewrite <- (rev_involutive t).
  by apply Forall_rev.
Qed.

Lemma trim_app_space d s t :
  Forall (λ c, is_js_space c = true) d →
  Forall (λ c, is_js_space c = true) t →
  trim (d ++ s ++ t) = trim s.
Proof.
  intros Hd Ht. unfold trim. rewrite trimStart_app_space by done.
  destruct (trimStart s) as [|c r] eqn:E.
  - apply trimStart_nil_space in E.
    rewrite trimStart_space; [done|]. by apply Forall_app.
  - rewrite trimStart_app by (by rewrite E). rewrite E.
    by apply trimEnd_app_space.
Qed.

(** X15.  White space around the response does not count: whatever
    white space and line ends of JavaScript stand before and after a text,
    no-break spaces and byte order marks included, the decoder does with
    the whole what it does with the text. *)
Theorem cleanAndParseJson_ignores_space (before text after : jsstring) :
  Forall (λ c, is_js_space c = true) before →
  Forall (λ c, is_js_space c = true) after →
  cleanAndParseJson (before ++ text ++ after) = cleanAndParseJson text.
Proof.
  intros Hb Ha. unfold cleanAndParseJson, jsonString.
  by rewrite trim_app_space.
Qed.

Lemma cleanAndParseJson_ignores_space_witness :
  cleanAndParseJson ([65279; 160] ++ js "[]" ++ [13; 10; 8232])
  = cleanAndParseJson (js "[]").
Proof.
  apply (cleanAndParseJson_ignores_space [65279; 160] (js "[]")
           [13; 10; 8232]);
    repeat constructor.
Defined.

(** ** Text around the fence *)

Lemma regex_match_skip pre s :
  BACKTICK ∉ pre → regex_match (pre ++ s) = regex_match s.
Proof.
  induction pre as [|c pre IH]; [done|]. intros Hnot.
  apply not_elem_of_cons in Hnot as [Hc Hpre].
  cbn [app regex_match].
  assert (match_here (c :: pre ++ s) = None) as ->.
  { unfold match_here.
    change (strip_prefix fence_open (c :: pre ++ s)) with
      (if 96 =? c then strip_prefix (tl fence_open) (pre ++ s) else None).
    destruct (N.eqb_spec 96 c) as [<-|]; [by destruct Hc|done]. }
  by apply IH.
Qed.

(** The closing fence is found right after a text the reader gets
    through, whatever follows it. *)
Lemma run_lazy_until_post st s post :
  is_Some (run st s) →
  lazy_until fence_close (s ++ fence_close ++ post) = Some s.
Proof.
  revert st; induction s as [|c s IH]; intros st Hrun.
  - reflexivity.
  - simpl in Hrun. destruct (step st c) as [st1|] eqn:E1; [|by destruct Hrun].
    simpl in Hrun.
    assert (strip_prefix fence_close ((c :: s) ++ fence_close ++ post) = None)
      as Hp.
    { change (strip_prefix fence_close ((c :: s) ++ fence_close ++ post)) with
        (if 10 =? c
         then strip_prefix (js "```") (s ++ fence_close ++ post) else None).
      destruct (N.eqb_spec 10 c) as [<-|]; [|done].
      destruct s as [|d s]; [done|].
      change (strip_prefix (js "```") ((d :: s) ++ fence_close ++ post)) with
        (if 96 =? d
         then strip_prefix (js "``") (s ++ fence_close ++ post) else None).
      destruct (N.eqb_spec 96 d) as [<-|]; [|done].
      apply step_LF in E1. simpl in Hrun.
      destruct (step st1 96) as [st2|] eqn:E2; [|by destruct Hrun].
      apply step_backtick in E2 as [E2 _]. congruence. }
    change (lazy_until fence_close ((c :: s) ++ fence_close ++ post)) with
      (match strip_prefix fence_close ((c :: s) ++ fence_close ++ post) with
       | Some _ => Some []
       | None => cons c <$> lazy_until fence_close (s ++ fence_close ++ post)
       end).
    rewrite Hp, (IH st1) by done. reflexivity.
Qed.

Lemma trimStart_suffix s : ∃ d, s = d ++ trimStart s.
Proof. destruct (trimStart_split s) as (d & Hd & _). by exists d. Qed.

Lemma trimEnd_backtick m : trimEnd (m ++ [BACKTICK]) = m ++ [BACKTICK].
Proof.
  unfold trimEnd. rewrite rev_app_distr. simpl. by rewrite rev_involutive.
Qed.

Lemma trim_around_fence pre mid post :
  trim (pre ++ (BACKTICK :: mid ++ [BACKTICK]) ++ post)
  = trimStart pre ++ (BACKTICK :: mid ++ [BACKTICK]) ++ trimEnd post.
Proof.
  set (F := BACKTICK :: mid ++ [BACKTICK]).
  assert (trimStart (F ++ post) = F ++ post) as HF by done.
  assert (trimEnd (trimStart pre ++ F) = trimStart pre ++ F) as HE.
  { unfold F. rewrite app_comm_cons, app_assoc. apply trimEnd_backtick. }
  unfold trim.
  assert (trimStart (pre ++ F ++ post) = trimStart pre ++ F ++ post) as ->.
  { destruct (trimStart pre) as [|c r] eqn:E.
    - apply trimStart_nil_space in E.
      by rewrite trimStart_app_space, HF.
    - rewrite trimStart_app by (by rewrite E). by rewrite E. }
  destruct (trimEnd post) as [|c r] eqn:E.
  - apply trimEnd_nil_space in E.
    rewrite !app_assoc, trimEnd_app_space by done.
    by rewrite HE, app_nil_r.
  - rewrite !app_assoc, trimEnd_app by (by rewrite E). by rewrite E.
Qed.

(** X16.  The fenced array is found inside other text.  When what
    stands before the json fence has no backtick and the interior of the
    fence is a JSON text, the interior is what [JSON.parse] gets, whatever
    follows the closing fence, more fences included: an array is returned,
    any other value is refused. *)
Theorem fenced_json_is_extracted (pre body post : jsstring) (v : json) :
  BACKTICK ∉ pre →
  JSON_parse body = Some v →
  jsonString (pre ++ fence_open ++ body ++ fence_close ++ post) = body
  ∧ cleanAndParseJson (pre ++ fence_open ++ body ++ fence_close ++ post)
    = match v with
      | JArray parsed => Return parsed
      | _ => Throw MalformedResponseError
      end.
Proof.
  intros Hpre Hparse.
  assert (is_Some (run (MValue, []) body)) as Hrun.
  { unfold JSON_parse in Hparse.
    destruct (run (MValue, []) body); [done|discriminate]. }
  assert (jsonString (pre ++ fence_open ++ body ++ fence_close ++ post)
          = body) as Hjson.
  { unfold jsonString.
    replace (pre ++ fence_open ++ body ++ fence_close ++ post) with
      (pre ++ (BACKTICK :: (tl fence_open ++ body ++ removelast fence_close)
                 ++ [BACKTICK]) ++ post)
      by (cbn [app tl]; rewrite <- !app_assoc; reflexivity).
    rewrite trim_around_fence.
    replace ((BACKTICK :: (tl fence_open ++ body ++ removelast fence_close)
                ++ [BACKTICK]) ++ trimEnd post) with
      (fence_open ++ body ++ fence_close ++ trimEnd post)
      by (cbn [app tl]; rewrite <- !app_assoc; reflexivity).
    rewrite regex_match_skip.
    - rewrite (regex_match_here _ body); [done|].
      unfold match_here. rewrite strip_prefix_app. simpl.
      by apply (run_lazy_until_post (MValue, [])).
    - destruct (trimStart_suffix pre) as [d Hd]. intros Hin.
      apply Hpre. rewrite Hd. apply elem_of_app. by right. }
  split; [done|].
  unfold cleanAndParseJson. rewrite Hjson, Hparse. by destruct v.
Qed.

(** Here is the data: ... Let me know if you need anything else. *)
Lemma fenced_json_is_extracted_witness :
  cleanAndParseJson
    ((js "Here is the data:" ++ [LF]) ++ fence_open ++ coffee_shop_response
     ++ fence_close
     ++ ([LF] ++ js "Let me know if you need anything else."))
  = match JSON_parse coffee_shop_response with
    | Some (JArray parsed) => Return parsed
    | _ => Throw MalformedResponseError
    end.
Proof.
  destruct (JSON_parse coffee_shop_response) as [v|] eqn:E;
    [|vm_compute in E; discriminate E].
  destruct (fenced_json_is_extracted (js "Here is the data:" ++ [LF])
              coffee_shop_response
              ([LF] ++ js "Let me know if you need anything else.") v)
    as [_ ->]; [|exact E|by destruct v].
  vm_compute. intros H.
  repeat (apply elem_of_cons in H as [H|H]; [discriminate H|]).
  by apply elem_of_nil in H.
Defined.

(** ** The trimmed, fence-stripped text *)

Lemma trimStart_unpadded s :
  (∀ c, head s = Some c → is_js_space c = false) → trimStart s = s.
Proof.
  destruct s as [|c s]; [done|]. intros H. simpl. by rewrite (H c).
Qed.

Lemma trimStart_head s c :
  head (trimStart s) = Some c → is_js_space c = false.
Proof.
  induction s as [|a s IH]; simpl; [done|].
  destruct (is_js_space a) eqn:E; [done|]. simpl. by intros [= <-].
Qed.

Lemma last_rev (l : jsstring) : last (rev l) = head l.
Proof. destruct l as [|a l]; [done|]. simpl. apply last_snoc. Qed.

Lemma trim_unpadded s : unpadded s → trim s = s.
Proof.
  intros [Hhead Hlast]. unfold trim. rewrite trimStart_unpadded by done.
  unfold trimEnd. rewrite trimStart_unpadded; [apply rev_involutive|].
  intros c Hc. apply Hlast. rewrite <- (rev_involutive s).
  by rewrite last_rev.
Qed.

Lemma trim_split text :
  ∃ before after,
    text = before ++ trim text ++ after
    ∧ Forall (λ c, is_js_space c = true) before
    ∧ Forall (λ c, is_js_space c = true) after.
Proof.
  destruct (trimStart_split text) as (d & Hd & Hsd).
  destruct (trimEnd_split (trimStart text)) as (t & Ht & Hst).
  exists d, t. split; [|done]. unfold trim. by rewrite <- Ht.
Qed.

Lemma trim_is_unpadded text : unpadded (trim text).
Proof.
  split; intros c Hc.
  - destruct (trimEnd_split (trimStart text)) as (t & Ht & _).
    apply (trimStart_head text). rewrite Ht. fold (trim text).
    destruct (trim text); [done|]. exact Hc.
  - unfold trim, trimEnd in Hc. rewrite last_rev in Hc.
    by apply trimStart_head in Hc.
Qed.

Lemma lazy_until_eq close s :
  lazy_until close s
  = match strip_prefix close s with
    | Some _ => Some []
    | None => match s with
              | [] => None
              | c :: s' => cons c <$> lazy_until close s'
              end
    end.
Proof. by destruct s. Qed.

Lemma regex_match_eq s :
  regex_match s
  = match match_here s with
    | Some interior => Some interior
    | None => match s with
              | [] => None
              | _ :: s' => regex_match s'
              end
    end.
Proof. by destruct s. Qed.

Lemma match_here_open rest :
  match_here (fence_open ++ rest) = lazy_until fence_close rest.
Proof. unfold match_here. by rewrite strip_prefix_app. Qed.

(** A closing literal that is there is found. *)
Lemma lazy_until_is_Some close body post :
  is_Some (lazy_until close (body ++ close ++ post)).
Proof.
  induction body as [|c body IH]; rewrite lazy_until_eq.
  - cbn [app]. by rewrite strip_prefix_app.
  - destruct (strip_prefix close ((c :: body) ++ close ++ post)); [done|].
    cbn [app]. destruct IH as [g ->]. done.
Qed.

(** A json fence that is there is found. *)
Lemma regex_match_is_Some pre body post :
  is_Some (regex_match (pre ++ fence_open ++ body ++ fence_close ++ post)).
Proof.
  induction pre as [|c pre IH]; rewrite regex_match_eq.
  - cbn [app]. rewrite match_here_open.
    by destruct (lazy_until_is_Some fence_close body post) as [g ->].
  - destruct (match_here _); [done|]. exact IH.
Qed.

Lemma regex_match_None s : regex_match s = None ↔ ¬ has_json_fence s.
Proof.
  split.
  - intros Hnone (pre & body & post & ->).
    destruct (regex_match_is_Some pre body post) as [g Hg]. congruence.
  - intros Hno. destruct (regex_match s) as [g|] eqn:E; [|done].
    destruct Hno. apply regex_match_Some in E as (pre & post & ->).
    by exists pre, g, post.
Qed.

Lemma first_at_nil p : first_at p [].
Proof.
  intros x y H. apply (f_equal length) in H.
  rewrite !length_app in H. destruct y; [done|]. simpl in H. lia.
Qed.

Lemma first_at_tail p c a : first_at p (c :: a) → first_at p a.
Proof. intros H x y E. apply (H (c :: x) y). simpl. by rewrite E. Qed.

(** The literal does not match at the head of a text in which it first
    stands further on. *)
Lemma first_at_strip_prefix p c a rest :
  first_at p (c :: a) → strip_prefix p ((c :: a) ++ p ++ rest) = None.
Proof.
  intros Hfirst.
  destruct (strip_prefix p ((c :: a) ++ p ++ rest)) as [r|] eqn:E; [|done].
  apply strip_prefix_Some in E. rewrite app_assoc in E.
  apply app_eq_inv in E as [(k & Hk & _)|(k & Hk & _)].
  - specialize (Hfirst [] k Hk). subst k.
    apply (f_equal length) in Hk. rewrite !length_app in Hk.
    simpl in Hk. lia.
  - apply (f_equal length) in Hk. rewrite !length_app in Hk.
    simpl in Hk. lia.
Qed.

Lemma lazy_until_first close s group1 :
  lazy_until close s = Some group1 → first_at close group1.
Proof.
  revert group1; induction s as [|c s IH]; intros g; rewrite lazy_until_eq.
  - destruct (strip_prefix close []); [|done].
    intros [= <-]. apply first_at_nil.
  - destruct (strip_prefix close (c :: s)) as [r|] eqn:Ep.
    { intros [= <-]. apply first_at_nil. }
    destruct (lazy_until close s) as [g'|] eqn:Eg; [|done].
    intros [= <-]. specialize (IH g' eq_refl).
    intros [|c' x] y E.
    + destruct (lazy_until_Some _ _ _ Eg) as [post Hs].
      assert (c :: s = close ++ y ++ post) as Hcs.
      { rewrite Hs. cbn [app] in E. rewrite (app_assoc close y post), <- E.
        cbn [app]. by rewrite <- app_assoc. }
      rewrite Hcs, strip_prefix_app in Ep. done.
    + injection E as _ E. by apply (IH x y).
Qed.

Lemma lazy_until_shortest close group1 post :
  first_at close group1 →
  lazy_until close (group1 ++ close ++ post) = Some group1.
Proof.
  induction group1 as [|c g IH]; intros Hfirst; rewrite lazy_until_eq.
  - cbn [app]. by rewrite strip_prefix_app.
  - rewrite first_at_strip_prefix by done. cbn [app].
    by rewrite IH by (by eapply first_at_tail).
Qed.

(** The match is at the first opening fence line and ends at the first
    closing fence after it. *)
Lemma regex_match_first s group1 :
  regex_match s = Some group1 →
  ∃ pre post,
    s = pre ++ fence_open ++ group1 ++ fence_close ++ post
    ∧ first_at fence_open pre ∧ first_at fence_close group1.
Proof.
  induction s as [|c s IH]; rewrite regex_match_eq.
  - intros H. vm_compute in H. discriminate H.
  - destruct (match_here (c :: s)) as [g|] eqn:Eh.
    + intros [= ->]. unfold match_here in Eh.
      destruct (strip_prefix fence_open (c :: s)) as [rest|] eqn:Ep;
        [|done].
      simpl in Eh. apply strip_prefix_Some in Ep.
      destruct (lazy_until_Some _ _ _ Eh) as [post ->].
      exists [], post. split; [done|]. split; [apply first_at_nil|].
      by eapply lazy_until_first.
    + intros Hs. destruct (IH Hs) as (pre & post & -> & Hpre & Hg).
      exists (c :: pre), post. split; [done|]. split; [|done].
      intros [|c' x] y E.
      * exfalso.
        assert (c :: pre ++ fence_open ++ group1 ++ fence_close ++ post
                = fence_open ++ (y ++ group1) ++ fence_close ++ post)
          as Hcs.
        { change (c :: pre ++ fence_open ++ group1 ++ fence_close ++ post)
            with ((c :: pre) ++ fence_open ++ group1 ++ fence_close ++ post).
          rewrite (app_assoc (c :: pre)), E. cbn [app].
          by rewrite <- !app_assoc. }
        rewrite Hcs, match_here_open in Eh.
        destruct (lazy_until_is_Some fence_close (y ++ group1) post)
          as [g' Hg']. congruence.
      * injection E as _ E. by apply (Hpre x y).
Qed.

Lemma regex_match_leftmost pre group1 post :
  first_at fence_open pre → first_at fence_close group1 →
  regex_match (pre ++ fence_open ++ group1 ++ fence_close ++ post)
  = Some group1.
Proof.
  intros Hpre Hg. induction pre as [|c pre IH]; rewrite regex_match_eq.
  - cbn [app]. rewrite match_here_open.
    by rewrite lazy_until_shortest.
  - unfold match_here at 1. rewrite first_at_strip_prefix by done.
    cbn [app]. apply IH. by eapply first_at_tail.
Qed.

(** [JSON.parse] gets the trimmed, fence-stripped text. *)
Lemma jsonString_payload before trimmed after payload :
  Forall (λ c, is_js_space c = true) before →
  Forall (λ c, is_js_space c = true) after →
  unpadded trimmed →
  fence_stripped trimmed payload →
  jsonString (before ++ trimmed ++ after) = payload.
Proof.
  intros Hb Ha Hun Hstrip. unfold jsonString.
  rewrite trim_app_space, trim_unpadded by done.
  destruct Hstrip as [(pre & post & -> & Hpre & Hg)|[-> Hno]].
  - by rewrite regex_match_leftmost.
  - apply regex_match_None in Hno. by rewrite Hno.
Qed.

(** C1.  [cleanAndParseJson] throws exactly when the trimmed text with the
    fence stripped is not JSON or is JSON but no array, and then it throws
    the invalid-data-format error and no other; an array is returned as it
    was parsed, its records unchecked.  Trimmed: without the white space
    at its two ends; fence stripped: cut down to what stands between the
    first opening json fence line and the first closing fence after it, if
    there is such a fence.  Every text has its trimmed, fence-stripped
    text.  So ["not json"] and ["{}"] throw, bare, padded or fenced, ["[]"]
    gives the empty list, padded or not, and a record without [amount]
    comes back as it is, fenced or not. *)
Theorem cleanAndParseJson_raises_iff :
  (∀ before trimmed after payload : jsstring,
     Forall (λ c, is_js_space c = true) before →
     Forall (λ c, is_js_space c = true) after →
     unpadded trimmed →
     fence_stripped trimmed payload →
     (cleanAndParseJson (before ++ trimmed ++ after)
      = Throw MalformedResponseError ↔
        JSON_parse payload = None ∨
        ∃ v, JSON_parse payload = Some v ∧ isArray v = false)
     ∧ (∀ e, cleanAndParseJson (before ++ trimmed ++ after) = Throw e →
             e = MalformedResponseError)
     ∧ (∀ parsed, JSON_parse payload = Some (JArray parsed) →
          cleanAndParseJson (before ++ trimmed ++ after) = Return parsed))
  ∧ (∀ text : jsstring,
       ∃ before trimmed after payload,
         text = before ++ trimmed ++ after
         ∧ Forall (λ c, is_js_space c = true) before
         ∧ Forall (λ c, is_js_space c = true) after
         ∧ unpadded trimmed
         ∧ fence_stripped trimmed payload)
  ∧ cleanAndParseJson (js "not json") = Throw MalformedResponseError
  ∧ cleanAndParseJson (js "{}") = Throw MalformedResponseError
  ∧ cleanAndParseJson (js "[]") = Return []
  ∧ cleanAndParseJson record_without_amount =
      Return [JObject [(js "date", JString (js "2024-01-05"));
                       (js "description", JString (js "COFFEE SHOP"));
                       (js "category", JString (js "Dining"));
                       (js "notes", JString [])]]
  ∧ cleanAndParseJson ([65279; 160] ++ js "[]" ++ [13; 10]) = Return []
  ∧ cleanAndParseJson (js " " ++ fence_open ++ js "{}" ++ fence_close ++ [LF])
    = Throw MalformedResponseError
  ∧ cleanAndParseJson (fence_open ++ js "not json" ++ fence_close)
    = Throw MalformedResponseError
  ∧ cleanAndParseJson
      (js "Result:" ++ [LF] ++ fence_open ++ record_without_amount
       ++ fence_close) =
      Return [JObject [(js "date", JString (js "2024-01-05"));
                       (js "description", JString (js "COFFEE SHOP"));
                       (js "category", JString (js "Dining"));
                       (js "notes", JString [])]].
Proof.
  split; [|split; [|repeat split; vm_compute; reflexivity]].
  - intros before trimmed after payload Hb Ha Hun Hstrip.
    rewrite <- (jsonString_payload before trimmed after payload) by done.
    apply cleanAndParseJson_cases.
  - intros text. destruct (trim_split text) as (before & after & Ht & Hb & Ha).
    exists before, (trim text), after.
    destruct (regex_match (trim text)) as [group1|] eqn:E.
    + exists group1. repeat (split; [done || apply trim_is_unpadded|]).
      left. apply regex_match_first in E as (pre & post & E & Hpre & Hg).
      by exists pre, post.
    + exists (trim text). repeat (split; [done || apply trim_is_unpadded|]).
      right. split; [done|]. by apply regex_match_None.
Qed.

End FenceFacts.

(** * Properties of the file list *)

Module FileUploadFacts.
Import Pipeline FileUpload.
#[local] Open Scope nat_scope.

Lemma not_listed_spec files newFile :
  not_listed files newFile = true ↔ name newFile ∉ map name files.
Proof.
  unfold not_listed. rewrite negb_true_iff, <- not_true_iff_false.
  apply not_iff_compat. rewrite existsb_exists, list_elem_of_fmap.
  split.
  - intros (f & Hin & Heq). apply String.eqb_eq in Heq.
    exists f. split; [done|]. by apply list_elem_of_In.
  - intros (f & Heq & Hin). exists f.
    split; [by apply list_elem_of_In|]. by apply String.eqb_eq.
Qed.

(** The loop of [handleFileSelect] adds what a filter would keep. *)
Lemma handleFileSelect_foldl files updatedFiles newFiles :
  foldl (λ updatedFiles newFile,
           if not_listed files newFile
           then updatedFiles ++ [newFile]
           else updatedFiles)
    updatedFiles newFiles
  = updatedFiles ++ List.filter (not_listed files) newFiles.
Proof.
  revert updatedFiles; induction newFiles as [|f newFiles IH];
    intros updatedFiles; simpl.
  - by rewrite app_nil_r.
  - rewrite IH. destruct (not_listed files f); [|done].
    by rewrite <- app_assoc.
Qed.

Lemma NoDup_names_filter (p : File → bool) files :
  NoDup (map name files) → NoDup (map name (List.filter p files)).
Proof.
  induction files as [|f files IH]; simpl; [done|].
  intros [Hf Hnd]%NoDup_cons. destruct (p f); simpl; [|by apply IH].
  apply NoDup_cons. split; [|by apply IH].
  intros (g & Hg & Hin)%list_elem_of_fmap. apply Hf.
  apply list_elem_of_fmap. exists g. split; [done|].
  apply list_elem_of_In, filter_In in Hin as [Hin _].
  by apply list_elem_of_In.
Qed.

Lemma sublist_List_filter {A} (p : A → bool) (l : list A) :
  sublist (List.filter p l) l.
Proof.
  induction l as [|x l IH]; simpl; [constructor|].
  destruct (p x); by constructor.
Qed.

(** X17.  Selecting files keeps the listed files where they are and
    adds, in the order of the selection, exactly the selected files whose
    name is not yet listed; a selection of nothing reports nothing.  When
    the listed names are distinct and so are the selected ones, the names
    of the new list are distinct. *)
Theorem handleFileSelect_adds_new_names (files newFiles : list File) :
  (newFiles = [] → handleFileSelect files newFiles = None)
  ∧ (newFiles ≠ [] →
     ∃ added,
       handleFileSelect files newFiles = Some (files ++ added)
       ∧ sublist added newFiles
       ∧ (∀ f, f ∈ added ↔ f ∈ newFiles ∧ name f ∉ map name files)
       ∧ (NoDup (map name files) → NoDup (map name newFiles) →
          NoDup (map name (files ++ added)))).
Proof.
  split; [by intros ->|]. intros Hne.
  exists (List.filter (not_listed files) newFiles).
  split; [|split; [|split]].
  - unfold handleFileSelect. destruct newFiles; [done|].
    cbn [length Nat.eqb]. by rewrite handleFileSelect_foldl.
  - apply sublist_List_filter.
  - intros f. rewrite list_elem_of_In, filter_In, <- list_elem_of_In.
    by rewrite not_listed_spec.
  - intros Hfiles Hnew. rewrite map_app. apply NoDup_app.
    split; [done|]. split; [|by apply NoDup_names_filter].
    intros n Hn (f & -> & Hin)%list_elem_of_fmap.
    apply list_elem_of_In, filter_In in Hin as [_ Hin].
    by apply not_listed_spec in Hin.
Qed.

Lemma handleFileSelect_adds_new_names_witness :
  ∃ added,
    handleFileSelect [statement_pdf; receipt_png]
      [receipt_png; broken_pdf; statement_pdf]
    = Some ([statement_pdf; receipt_png] ++ added)
    ∧ sublist added [receipt_png; broken_pdf; statement_pdf].
Proof.
  destruct (proj2 (handleFileSelect_adds_new_names
                     [statement_pdf; receipt_png]
                     [receipt_png; broken_pdf; statement_pdf]))
    as (added & Hsel & Hsub & _); [discriminate|].
  by exists added.
Defined.

(** X18.  Removing a name leaves exactly the files with another name, in
    their order; when the name is not listed the list is as it was, and
    distinct names stay distinct. *)
Theorem handleRemoveFile_removes_name (fileNameToRemove : string)
    (files : list File) :
  sublist (handleRemoveFile fileNameToRemove files) files
  ∧ (∀ f, f ∈ handleRemoveFile fileNameToRemove files
          ↔ f ∈ files ∧ name f ≠ fileNameToRemove)
  ∧ (fileNameToRemove ∉ map name (handleRemoveFile fileNameToRemove files))
  ∧ (fileNameToRemove ∉ map name files →
     handleRemoveFile fileNameToRemove files = files)
  ∧ (NoDup (map name files) →
     NoDup (map name (handleRemoveFile fileNameToRemove files))).
Proof.
  unfold handleRemoveFile.
  assert (∀ f, f ∈ List.filter
                     (λ file, negb (String.eqb (name file) fileNameToRemove))
                     files
               ↔ f ∈ files ∧ name f ≠ fileNameToRemove) as Hmem.
  { intros f. rewrite list_elem_of_In, filter_In, <- list_elem_of_In.
    by rewrite negb_true_iff, String.eqb_neq. }
  split; [|split; [done|split; [|split]]].
  - apply sublist_List_filter.
  - intros (f & Hn & Hin)%list_elem_of_fmap. apply Hmem in Hin as [_ Hin].
    by destruct Hin.
  - clear Hmem. induction files as [|f l IH]; simpl; [done|].
    intros [Hf Hl]%not_elem_of_cons.
    apply not_eq_sym, String.eqb_neq in Hf. rewrite Hf. simpl.
    by rewrite IH.
  - apply NoDup_names_filter.
Qed.

(** X19.  Adding one file under a name that is not listed and removing
    that name gives the list back. *)
Theorem select_then_remove (files : list File) (newFile : File) :
  name newFile ∉ map name files →
  handleFileSelect files [newFile] = Some (files ++ [newFile])
  ∧ handleRemoveFile (name newFile) (files ++ [newFile]) = files.
Proof.
  intros Hnew. split.
  - unfold handleFileSelect; simpl.
    by apply not_listed_spec in Hnew as ->.
  - unfold handleRemoveFile. rewrite List.filter_app. simpl.
    rewrite String.eqb_refl. simpl. rewrite app_nil_r.
    induction files as [|f l IH]; simpl; [done|].
    apply not_elem_of_cons in Hnew as [Hf Hl].
    apply not_eq_sym, String.eqb_neq in Hf. rewrite Hf. simpl.
    by rewrite IH.
Qed.

Lemma select_then_remove_witness :
  handleFileSelect [statement_pdf] [receipt_png]
  = Some [statement_pdf; receipt_png]
  ∧ handleRemoveFile "receipt.png" [statement_pdf; receipt_png]
    = [statement_pdf].
Proof.
  apply (select_then_remove [statement_pdf] receipt_png).
  vm_compute. intros H.
  apply elem_of_cons in H as [H|H]; [discriminate H|].
  by apply elem_of_nil in H.
Defined.

End FileUploadFacts.

(** * Properties of the application state *)

Module AppFacts.
Import Decode Pipeline PipelineFacts RunFacts TransactionTable App.
#[local] Open Scope nat_scope.

Lemma handleProcessStatement_run w completion schedule st :
  files st ≠ [] →
  handleProcessStatement w completion schedule st
  = ((processStatementFiles w (files st) completion).1,
     match (processStatementFiles w (files st) completion).2 with
     | Fulfilled result => State (files st) result false None EmptyString
     | Rejected err =>
         State (files st) [] false (Some (message_of err)) EmptyString
     | Pending =>
         State (files st) [] true None
           (reported "Preparing your documents..."
              (calls_in_order w (files st) completion schedule))
     end).
Proof.
  intros Hne. unfold handleProcessStatement.
  by destruct (files st).
Qed.

(** X20.  The error panel shows the first failure.  When the render of
    one of the listed files is rejected with an [Error] and tells so
    before any other rejected render, the application ends with the
    spinner off, the loading message cleared, no transactions, and the
    message of that error, unchanged, as its error; the extraction service
    was not called. *)
Theorem app_shows_first_failure (w : World) (st : state)
    (before after schedule : list nat) (i : nat) (file : File)
    (message : string) :
  files st !! i = Some file →
  (fileToGenerativePart w file).2 = Rejected (Error message) →
  (∀ j e', j ∈ before → renders w (files st) !! j ≠ Some (Rejected e')) →
  (handleProcessStatement w (before ++ i :: after) schedule st).2
  = State (files st) [] false (Some message) EmptyString
  ∧ service_calls
      (handleProcessStatement w (before ++ i :: after) schedule st).1 = []
  ∧ spinner_shown
      (handleProcessStatement w (before ++ i :: after) schedule st).2
    = false
  ∧ results_shown
      (handleProcessStatement w (before ++ i :: after) schedule st).2
    = false.
Proof.
  intros Hi He Hbefore.
  assert (files st ≠ []) as Hne by (intros E; by rewrite E in Hi).
  assert ((imageParts_of w (files st) (before ++ i :: after)).2
          = Rejected (Error message)) as Hparts.
  { rewrite imageParts_of_outcome.
    rewrite (Promise_all_first_rejection _ before i after (Error message));
      [done| |done].
    by rewrite (renders_lookup _ _ _ _ Hi), He. }
  rewrite handleProcessStatement_run by done.
  rewrite (processStatementFiles_Rejected _ _ _ _ Hparts). cbn [fst snd].
  repeat split.
  by rewrite service_calls_processStatementFiles, Hparts.
Qed.

Lemma app_shows_first_failure_witness :
  (handleProcessStatement sample_world [1; 0] [0; 1; 0; 1]
     (State [statement_pdf; broken_pdf] [] false None EmptyString)).2
  = State [statement_pdf; broken_pdf] [] false
      (Some "Could not read broken.pdf. It might be corrupted or password-protected.")
      EmptyString.
Proof.
  apply (app_shows_first_failure sample_world
           (State [statement_pdf; broken_pdf] [] false None EmptyString)
           [] [0] [0; 1; 0; 1] 1 broken_pdf); [reflexivity|reflexivity|].
  intros j e' Hj. by apply elem_of_nil in Hj.
Defined.

(** *** The messages of renders that run side by side *)









(** *** What the table renders *)

Lemma as_asked_renders t : as_asked t → row_renders t = true.
Proof.
  intros (ps & date & description & literal & category & notes & ->
          & Hd & Hde & Ha & Hc & Hn).
  unfold row_renders, field. by rewrite Hd, Hde, Ha, Hc, Hn.
Qed.

Lemma no_amount_no_row t :
  t = JNull ∨ (∀ literal, field t "amount" ≠ Return (Some (JNumber literal))) →
  row_renders t = false.
Proof.
  intros [->|Hno]; [done|]. unfold row_renders.
  destruct (field t "date"); [|done].
  destruct (field t "description"); [|done].
  destruct (field t "amount") as [[[| |lit| | |]|]|];
    try (by destruct (Hno lit)); try done;
    destruct (field t "category"); try done;
    destruct (field t "notes"); try done;
    simpl; by rewrite ?andb_false_r.
Qed.

(** X22.  What is shown after an answer.  When the batch is ready and
    the service answers with a text that the decoder returns an array for,
    the application ends with that array as its transactions, the spinner
    off and no error.  For the empty array the upload form is shown
    again, with its button and without any message.  For an array with
    records the results are shown if every row renders, and they do when
    the records are as the schema asks; when one record is [null] or has
    no number for its amount, which the decoder does not check, the table
    throws while it is rendered and nothing is shown at all. *)
Theorem app_shows_decoded_response (w : World) (st : state)
    (completion schedule : list nat) (pages : list (list Part))
    (response : Response) (c : code_unit) (textResponse : jsstring)
    (parsed : list json) :
  batch_ready w (files st) completion pages →
  generateContent w (request (concat pages)) = Fulfilled response →
  text response = Some (c :: textResponse) →
  cleanAndParseJson (c :: textResponse) = Return parsed →
  (handleProcessStatement w completion schedule st).2
  = State (files st) parsed false None EmptyString
  ∧ results_shown (handleProcessStatement w completion schedule st).2
    = (0 <? length parsed) && forallb row_renders parsed
  ∧ upload_shown (handleProcessStatement w completion schedule st).2
    = (length parsed =? 0)
  ∧ analyze_button_shown (handleProcessStatement w completion schedule st).2
    = (length parsed =? 0)
  ∧ error_shown (handleProcessStatement w completion schedule st).2 = false
  ∧ spinner_shown (handleProcessStatement w completion schedule st).2 = false
  ∧ (parsed ≠ [] → Forall as_asked parsed →
     results_shown (handleProcessStatement w completion schedule st).2 = true)
  ∧ (∀ t, t ∈ parsed →
       t = JNull
       ∨ (∀ literal, field t "amount" ≠ Return (Some (JNumber literal))) →
       crashed (handleProcessStatement w completion schedule st).2 = true
       ∧ results_shown (handleProcessStatement w completion schedule st).2
         = false
       ∧ upload_shown (handleProcessStatement w completion schedule st).2
         = false).
Proof.
  intros Hready Hgen Htext Hdecode.
  assert (files st ≠ []) as Hne.
  { destruct Hready as (Hall & Hcat & _). intros E. rewrite E in Hall.
    apply Forall2_nil_inv_l in Hall. by subst pages. }
  rewrite handleProcessStatement_run by done.
  rewrite (ready_run_outcome _ _ _ _ Hready), Hgen, Htext, Hdecode.
  cbn [snd]. do 3 (split; [done|]). split; [|do 2 (split; [done|]); split].
  - unfold analyze_button_shown, upload_shown; simpl.
    destruct (files st); [done|]. simpl. by rewrite andb_true_r.
  - intros Hparsed Hasked. unfold results_shown. simpl.
    destruct parsed as [|t parsed]; [done|].
    apply forallb_forall. intros t' Ht'%list_elem_of_In.
    apply as_asked_renders.
    by eapply (proj1 (Forall_forall _ _) Hasked).
  - intros t Ht Hbad.
    assert (forallb row_renders parsed = false) as Hrows.
    { apply not_true_is_false. intros Hall.
      rewrite forallb_forall in Hall.
      specialize (Hall t (proj1 (list_elem_of_In _ _) Ht)).
      rewrite (no_amount_no_row t Hbad) in Hall. discriminate. }
    unfold crashed, results_shown, upload_shown. simpl. rewrite Hrows.
    destruct parsed as [|t' parsed]; [by apply elem_of_nil in Ht|done].
Qed.

(** The service answers with the coffee shop purchase and the results
    are shown. *)
Lemma app_shows_decoded_response_witness :
  results_shown
    (handleProcessStatement sample_world [0] [0]
       (State [receipt_png] [] false None EmptyString)).2
  = true.
Proof.
  destruct (app_shows_decoded_response sample_world
              (State [receipt_png] [] false None EmptyString) [0] [0]
              [[InlineData "image/png" (Some "iVBORw==")]]
              {| text := Some coffee_shop_response |} 32%N
              (tl coffee_shop_response)
              [JObject [(js "date", JString (js "2024-01-05"));
                        (js "description", JString (js "COFFEE SHOP"));
                        (js "amount", JNumber (js "-4.5"));
                        (js "category", JString (js "Dining"));
                        (js "notes", JString [])]])
    as (_ & _ & _ & _ & _ & _ & Hshown & _);
    [|reflexivity|reflexivity|vm_compute; reflexivity|].
  - split; [repeat constructor|]. split; [discriminate|].
    intros [|j] o H _; [apply list_elem_of_here|].
    vm_compute in H; discriminate H.
  - apply Hshown; [discriminate|]. repeat constructor.
    eexists _, _, _, _, _, _. split; [reflexivity|].
    repeat split; vm_compute; reflexivity.
Defined.

End AppFacts.

(** * Properties of the copy as tab-separated values *)

Module TransactionTableFacts.
Import Decode TransactionTable.
#[local] Open Scope N_scope.

(** ** Cells *)

Lemma one_cell_nil : one_cell [].
Proof. repeat split; apply not_elem_of_nil. Qed.

Lemma replace_breaks_one_cell s : one_cell (replace_breaks s).
Proof.
  unfold one_cell, replace_breaks.
  repeat split; intros (c & Hc & _)%list_elem_of_fmap; revert Hc;
    unfold TAB, LF, CR, SPACE;
    destruct (N.eqb_spec c 9) as [->|?]; simpl; try done;
    destruct (N.eqb_spec c 10) as [->|?]; simpl; try done;
    destruct (N.eqb_spec c 13) as [->|?]; simpl; congruence.
Qed.

Lemma replace_breaks_id s : one_cell s → replace_breaks s = s.
Proof.
  unfold one_cell, replace_breaks. intros (Ht & Hl & Hr).
  induction s as [|c s IH]; simpl; [done|].
  apply not_elem_of_cons in Ht as [Ht1 Ht2].
  apply not_elem_of_cons in Hl as [Hl1 Hl2].
  apply not_elem_of_cons in Hr as [Hr1 Hr2].
  rewrite IH by done.
  destruct (N.eqb_spec c TAB) as [->|?]; [done|].
  destruct (N.eqb_spec c LF) as [->|?]; [done|].
  destruct (N.eqb_spec c CR) as [->|?]; [done|]. done.
Qed.

(** X23.  A sanitized value is one cell: whatever the value is and
    however it prints, the text [sanitize] returns holds no tab, no line
    feed and no carriage return; [undefined] and [null] give the empty
    cell, and a string that already is one cell is left as it is. *)
Theorem sanitize_gives_one_cell (toString : json → result jsstring) :
  (∀ value s, sanitize toString value = Return s → one_cell s)
  ∧ sanitize toString None = Return []
  ∧ sanitize toString (Some JNull) = Return []
  ∧ (∀ s, toString (JString s) = Return s → one_cell s →
          sanitize toString (Some (JString s)) = Return s).
Proof.
  split; [|split; [done|split; [done|]]].
  - intros value s. unfold sanitize.
    destruct value as [[]|];
      try (intros [= <-]; apply one_cell_nil);
      (destruct (toString _) as [r|e]; simpl; [|done]);
      intros [= <-]; apply replace_breaks_one_cell.
  - intros s Hs Hcell. unfold sanitize. rewrite Hs. simpl.
    by rewrite replace_breaks_id.
Qed.

Lemma sanitize_gives_one_cell_witness :
  sanitize toString_sample (Some (JString (js "COFFEE SHOP")))
  = Return (js "COFFEE SHOP").
Proof.
  apply (proj2 (proj2 (proj2 (sanitize_gives_one_cell toString_sample))));
    [reflexivity|].
  repeat split; vm_compute; intros H;
    repeat (apply elem_of_cons in H as [H|H]; [discriminate H|]);
    by apply elem_of_nil in H.
Defined.

(** ** Splitting what was joined *)

Lemma split_on_clean sep s : sep ∉ s → split_on sep s = [s].
Proof.
  induction s as [|c s IH]; simpl; [done|].
  intros [Hc Hs]%not_elem_of_cons.
  destruct (N.eqb_spec c sep) as [->|?]; [done|]. by rewrite IH.
Qed.

Lemma split_on_app sep a b :
  sep ∉ a → split_on sep (a ++ sep :: b) = a :: split_on sep b.
Proof.
  induction a as [|c a IH]; simpl.
  - intros _. by rewrite N.eqb_refl.
  - intros [Hc Ha]%not_elem_of_cons.
    destruct (N.eqb_spec c sep) as [->|?]; [done|]. by rewrite IH.
Qed.

Lemma split_on_join sep items :
  items ≠ [] → Forall (λ item, sep ∉ item) items →
  split_on sep (join [sep] items) = items.
Proof.
  intros Hne Hall. induction Hall as [|item items Hitem Hall IH]; [done|].
  destruct items as [|item2 items].
  - simpl. by apply split_on_clean.
  - cbn [join app]. rewrite split_on_app by done. f_equal. by apply IH.
Qed.

Lemma join_clean sep c items :
  c ≠ sep → Forall (λ item, c ∉ item) items → c ∉ join [sep] items.
Proof.
  intros Hc Hall. induction Hall as [|item items Hitem Hall IH].
  - simpl. apply not_elem_of_nil.
  - destruct items as [|item2 items]; [done|].
    cbn [join app]. rewrite elem_of_app, elem_of_cons.
    intros [?|[?|?]]; done.
Qed.

(** ** Rows *)

Lemma field_not_null t key :
  t ≠ JNull → ∃ value, field t key = Return value.
Proof. destruct t; try done; intros _; by eexists. Qed.

Lemma sanitize_printable toString t key value :
  printable toString t → field t key = Return value →
  ∃ cell, sanitize toString value = Return cell ∧ one_cell cell.
Proof.
  intros (_ & Hprint & _) Hfield.
  destruct value as [v|]; [|exists []; split; [done|]].
  - assert (v = JNull ∨ v ≠ JNull) as [->|Hv]
      by (destruct v; (by left) || (by right)).
    + exists []. split; [done|apply one_cell_nil].
    + destruct (Hprint key v Hfield Hv) as [s Hs].
      exists (replace_breaks s). split; [|apply replace_breaks_one_cell].
      unfold sanitize. rewrite Hs. by destruct v.
  - apply one_cell_nil.
Qed.

Lemma row_printable toString t :
  printable toString t →
  ∃ cells, row toString t = Return (join [TAB] cells)
           ∧ length cells = 5%nat ∧ Forall one_cell cells.
Proof.
  intros Hp. pose proof Hp as (Hnull & _ & v & s & Hamount & Hv & Hs & Hcell).
  destruct (field_not_null t "date" Hnull) as [date Hdate].
  destruct (field_not_null t "description" Hnull) as [desc Hdesc].
  destruct (field_not_null t "category" Hnull) as [cat Hcat].
  destruct (field_not_null t "notes" Hnull) as [notes Hnotes].
  destruct (sanitize_printable _ _ _ _ Hp Hdate) as (c1 & E1 & H1).
  destruct (sanitize_printable _ _ _ _ Hp Hdesc) as (c2 & E2 & H2).
  destruct (sanitize_printable _ _ _ _ Hp Hcat) as (c4 & E4 & H4).
  destruct (sanitize_printable _ _ _ _ Hp Hnotes) as (c5 & E5 & H5).
  exists [c1; c2; s; c4; c5]. split; [|split; [done|]].
  - unfold row. rewrite Hdate. simpl. rewrite E1. simpl.
    rewrite Hdesc. simpl. rewrite E2. simpl.
    rewrite Hamount. simpl.
    destruct v; [done|..]; rewrite Hs; simpl; rewrite Hcat; simpl;
      rewrite E4; simpl; rewrite Hnotes; simpl; by rewrite E5.
  - repeat (constructor; [assumption|]). constructor.
Qed.

Lemma map_result_printable toString data :
  Forall (printable toString) data →
  ∃ rows, map_result (row toString) data = Return rows
          ∧ length rows = length data
          ∧ Forall (λ line, ∃ cells, line = join [TAB] cells
                                     ∧ length cells = 5%nat
                                     ∧ Forall one_cell cells) rows.
Proof.
  induction 1 as [|t data Ht _ (rows & Hrows & Hlen & Hall)].
  - exists []. by repeat split.
  - destruct (row_printable _ _ Ht) as (cells & Hrow & Hcells).
    exists (join [TAB] cells :: rows). split; [|split].
    + cbn [map_result]. rewrite Hrow. simpl. by rewrite Hrows.
    + simpl. by rewrite Hlen.
    + constructor; [by exists cells|done].
Qed.

Lemma headers_cells : Forall one_cell headers.
Proof.
  repeat constructor; vm_compute; intros H;
    repeat (apply elem_of_cons in H as [H|H]; [discriminate H|]);
    by apply elem_of_nil in H.
Qed.

(** X24.  The copy is a grid.  When every record prints and has an
    amount that prints as one cell, the text copied is the header line and
    one line per record, in order, joined by line feeds: splitting it at
    the line feeds gives those lines back, and splitting any of them at the
    tabs gives five cells. *)
Theorem convertToTSV_is_a_grid (toString : json → result jsstring)
    (data : list json) :
  Forall (printable toString) data →
  ∃ rows,
    convertToTSV toString data
    = Return (join [LF] (join [TAB] headers :: rows))
    ∧ length rows = length data
    ∧ split_on LF (join [LF] (join [TAB] headers :: rows))
      = join [TAB] headers :: rows
    ∧ Forall (λ line, length (split_on TAB line) = 5%nat)
        (join [TAB] headers :: rows).
Proof.
  intros (rows & Hrows & Hlen & Hall)%map_result_printable.
  exists rows.
  assert (Forall (λ line, ∃ cells, line = join [TAB] cells
                                   ∧ length cells = 5%nat
                                   ∧ Forall one_cell cells)
            (join [TAB] headers :: rows)) as Hlines.
  { constructor; [|done]. exists headers.
    split; [done|]. split; [done|]. apply headers_cells. }
  split; [|split; [done|split]].
  - unfold convertToTSV. by rewrite Hrows.
  - apply split_on_join; [done|].
    eapply Forall_impl; [exact Hlines|]. simpl.
    intros line (cells & -> & _ & Hcells).
    apply join_clean; [done|].
    eapply Forall_impl; [exact Hcells|]. by intros cell (_ & ? & _).
  - eapply Forall_impl; [exact Hlines|]. simpl.
    intros line (cells & -> & Hlen5 & Hcells).
    rewrite split_on_join; [done| |].
    + intros ->. done.
    + eapply Forall_impl; [exact Hcells|]. by intros cell (? & _).
Qed.

Lemma convertToTSV_is_a_grid_witness :
  ∃ rows,
    convertToTSV toString_sample
      [JObject [(js "date", JString (js "2024-01-05"));
                (js "description", JString (js "COFFEE" ++ [TAB] ++ js "SHOP"));
                (js "amount", JNumber (js "-4.5"));
                (js "category", JString (js "Dining"));
                (js "notes", JString [])]]
    = Return (join [LF] (join [TAB] headers :: rows))
    ∧ length rows = 1%nat.
Proof.
  destruct (convertToTSV_is_a_grid toString_sample
              [JObject [(js "date", JString (js "2024-01-05"));
                        (js "description",
                         JString (js "COFFEE" ++ [TAB] ++ js "SHOP"));
                        (js "amount", JNumber (js "-4.5"));
                        (js "category", JString (js "Dining"));
                        (js "notes", JString [])]])
    as (rows & Hcopy & Hlen & _); [|by exists rows].
  repeat constructor; [done| |].
  - intros key v _ _. destruct v as [| [] | | | |]; by eexists.
  - exists (JNumber (js "-4.5")), (js "-4.5").
    split; [reflexivity|]. split; [done|]. split; [reflexivity|].
    repeat split; vm_compute; intros H;
      repeat (apply elem_of_cons in H as [H|H]; [discriminate H|]);
      by apply elem_of_nil in H.
Defined.

(** ** Records without an amount *)

Lemma map_result_Throw {A B} (f : A → result B) (l : list A) (x : A) :
  x ∈ l → (∃ e, f x = Throw e) → ∃ e, map_result f l = Throw e.
Proof.
  intros Hin [e He]. induction l as [|y l IH]; [by apply elem_of_nil in Hin|].
  cbn [map_result]. destruct (f y) as [v|e'] eqn:Ey; simpl; [|by eexists].
  apply elem_of_cons in Hin as [->|Hin]; [congruence|].
  destruct (IH Hin) as [e'' ->]. by eexists.
Qed.

(** X25.  A record without amount breaks the copy.  When one of the
    records is [null], or has no [amount] or [null] for it, the conversion
    throws, for all the records, whatever the other fields and the other
    records are: the decoder lets such a record through, the table does
    not. *)
Theorem convertToTSV_needs_amount (toString : json → result jsstring)
    (data : list json) (t : json) :
  t ∈ data →
  t = JNull ∨ field t "amount" = Return None
  ∨ field t "amount" = Return (Some JNull) →
  ∃ e, convertToTSV toString data = Throw e.
Proof.
  intros Hin Hbad.
  assert (∃ e, row toString t = Throw e) as Hrow.
  { unfold row. destruct Hbad as [->|Hamount]; [by eexists|].
    destruct (field t "date") as [date|]; simpl; [|by eexists].
    destruct (sanitize toString date); simpl; [|by eexists].
    destruct (field t "description") as [desc|]; simpl; [|by eexists].
    destruct (sanitize toString desc); simpl; [|by eexists].
    destruct Hamount as [-> | ->]; simpl; by eexists. }
  destruct (map_result_Throw _ _ _ Hin Hrow) as [e He].
  exists e. unfold convertToTSV. by rewrite He.
Qed.

(** The record without amount that the decoder returned as it was. *)
Lemma convertToTSV_needs_amount_witness :
  ∃ parsed e,
    cleanAndParseJson record_without_amount = Return parsed
    ∧ convertToTSV toString_sample parsed = Throw e.
Proof.
  eexists. 
  destruct (convertToTSV_needs_amount toString_sample
              [JObject [(js "date", JString (js "2024-01-05"));
                        (js "description", JString (js "COFFEE SHOP"));
                        (js "category", JString (js "Dining"));
                        (js "notes", JString [])]]
              (JObject [(js "date", JString (js "2024-01-05"));
                        (js "description", JString (js "COFFEE SHOP"));
                        (js "category", JString (js "Dining"));
                        (js "notes", JString [])]))
    as [e He]; [apply list_elem_of_here|right; left; reflexivity|].
  exists e. split; [vm_compute; reflexivity|exact He].
Defined.

End TransactionTableFacts.
